(** * Page Break Indicator: the page-break position model

    A shallow embedding of [main.js] of the Obsidian page-break plugin:
    the geometry resolver ([getPageHeight]), the break generator
    ([calculateSimpleBreaks]), the incremental extender
    ([createAdditionalBreaks]), the marker numbering
    ([renderPageBreaks], [renderAdditionalBreaks]) and the cache handling
    of the view synchroniser ([updatePageBreaks], [updateAllViews],
    [extendContainersIfNeeded]).

    Numbers.  JavaScript numbers are binary64 floats.  The pixel and
    millimetre quantities are modelled by exact rationals [Q]: the
    statements below are about the arithmetic the program text denotes,
    free of rounding.  Page indices and DOM scroll heights are integers
    ([Z]).  The two [while] loops have no termination guard in the source,
    so they are embedded with a fuel argument: [None] means the loop is
    still running when the fuel is used up. *)

From Stdlib Require Import QArith Qround Lqa ZArith Lia List String Sorted.
From stdpp Require Import gmap.
Import ListNotations.

Open Scope Q_scope.

(** ** Helpers on rationals *)

(** The JavaScript test [x < y] on numbers. *)
Definition Qlt_bool (x y : Q) : bool := negb (Qle_bool y x).

(** A partial computation indexed by fuel returns [a]. *)
Definition Returns {A : Type} (run : nat -> option A) (a : A) : Prop :=
  exists fuel : nat, run fuel = Some a.

(** A partial computation indexed by fuel never returns. *)
Definition Diverges {A : Type} (run : nat -> option A) : Prop :=
  forall fuel : nat, run fuel = None.

(** ** Configuration (DEFAULT_SETTINGS, PAGE_DIMENSIONS, FONT_METRICS) *)

Module Geometry.

Inductive PageSize : Type := A4 | Letter | Legal.

Inductive Orientation : Type := portrait | landscape.

Record Dimensions : Type := { width : Q; height : Q }.

Record Settings : Type := {
  pageSize : PageSize;
  orientation : Orientation;
  marginTop : Q;
  marginBottom : Q;
  marginLeft : Q;
  marginRight : Q;
  fontSize : Q;
  lineHeight : Q;
  fontFamily : string;
  showPageNumbers : bool;
  minBreakSpacing : Q;
  calibrationOffset : Q
}.

Definition DEFAULT_SETTINGS : Settings := {|
  pageSize := A4;
  orientation := portrait;
  marginTop := 25.4;
  marginBottom := 25.4;
  marginLeft := 25.4;
  marginRight := 25.4;
  fontSize := 12;
  lineHeight := 1.5;
  fontFamily := "default";
  showPageNumbers := true;
  minBreakSpacing := 50;
  calibrationOffset := 0
|}.

Definition PAGE_DIMENSIONS (p : PageSize) : Dimensions :=
  match p with
  | A4 => {| width := 210; height := 297 |}
  | Letter => {| width := 215.9; height := 279.4 |}
  | Legal => {| width := 215.9; height := 355.6 |}
  end.

(** [FONT_METRICS[name]]: [None] is JavaScript's [undefined] for a key
    that is not in the table.  (Names that an object literal inherits from
    [Object.prototype], which only hand-edited saved data can hold, are
    taken as absent too.) *)
Definition FONT_METRICS (name : string) : option Q :=
  if String.eqb name "default" then Some 1.0
  else if String.eqb name "serif" then Some 1.02
  else if String.eqb name "sans-serif" then Some 0.98
  else if String.eqb name "monospace" then Some 1.05
  else None.

(** [v || 1.0]: the fallback is taken for [undefined] and for a falsy
    number (zero). *)
Definition or_default (v : option Q) (d : Q) : Q :=
  match v with
  | Some x => if Qeq_bool x 0 then d else x
  | None => d
  end.

Definition pixelsPerMm : Q := 96 / 25.4.

Definition getPageHeight (s : Settings) : Q :=
  let dims := PAGE_DIMENSIONS (pageSize s) in
  let height0 :=
    match orientation s with
    | portrait => height dims
    | landscape => width dims
    end in
  let height1 := height0 - (marginTop s + marginBottom s) in
  let heightInPixels := height1 * pixelsPerMm in
  let fontMetric := or_default (FONT_METRICS (fontFamily s)) 1.0 in
  let heightInPixels := heightInPixels * fontMetric in
  let heightInPixels := heightInPixels * 0.985 in
  heightInPixels.

End Geometry.

(** ** Break generation and incremental extension *)

Module Breaks.

Import Geometry.

(** The [while] loop of [calculateSimpleBreaks]; [breaks.push] appends at
    the end of the array. *)
Fixpoint calculateSimpleBreaks_loop
    (pageHeight totalHeight calibrationOffset minBreakSpacing : Q)
    (fuel : nat) (currentPage : Z) (lastBreakY : Q) (breaks : list Q)
    : option (list Q) :=
  match fuel with
  | O => None
  | S fuel' =>
      if Qlt_bool (inject_Z currentPage * pageHeight) totalHeight then
        let breakY := inject_Z currentPage * pageHeight + calibrationOffset in
        if Qle_bool minBreakSpacing (breakY - lastBreakY) then
          calculateSimpleBreaks_loop pageHeight totalHeight calibrationOffset
            minBreakSpacing fuel' (currentPage + 1)%Z breakY (breaks ++ [breakY])
        else
          calculateSimpleBreaks_loop pageHeight totalHeight calibrationOffset
            minBreakSpacing fuel' (currentPage + 1)%Z lastBreakY breaks
      else Some breaks
  end.

(** The body of [calculateSimpleBreaks] with the values it reads
    ([getPageHeight()], [container.scrollHeight], the two settings) as
    arguments: the generator [generateBreaks] of the specification. *)
Definition calculateSimpleBreaks_on
    (totalHeight pageHeight calibrationOffset minBreakSpacing : Q)
    (fuel : nat) : option (list Q) :=
  calculateSimpleBreaks_loop pageHeight totalHeight calibrationOffset
    minBreakSpacing fuel 1%Z 0 [].

Definition calculateSimpleBreaks (s : Settings) (scrollHeight : Z)
    (fuel : nat) : option (list Q) :=
  calculateSimpleBreaks_on (inject_Z scrollHeight) (getPageHeight s)
    (calibrationOffset s) (minBreakSpacing s) fuel.

(** The [while] loop of [createAdditionalBreaks]. *)
Fixpoint createAdditionalBreaks_loop
    (pageHeight oldHeight newHeight calibrationOffset minBreakSpacing : Q)
    (fuel : nat) (currentPage : Z) (lastBreakY : Q) (breaks : list Q)
    : option (list Q) :=
  match fuel with
  | O => None
  | S fuel' =>
      if Qlt_bool (inject_Z currentPage * pageHeight) newHeight then
        let breakY := inject_Z currentPage * pageHeight + calibrationOffset in
        if Qle_bool minBreakSpacing (breakY - lastBreakY)
           && Qlt_bool oldHeight breakY then
          createAdditionalBreaks_loop pageHeight oldHeight newHeight
            calibrationOffset minBreakSpacing fuel' (currentPage + 1)%Z breakY
            (breaks ++ [breakY])
        else
          createAdditionalBreaks_loop pageHeight oldHeight newHeight
            calibrationOffset minBreakSpacing fuel' (currentPage + 1)%Z
            lastBreakY breaks
      else Some breaks
  end.

(** [createAdditionalBreaks(lastBreak, oldHeight, newHeight, pageHeight)]
    with the two settings it reads as arguments.  With [pageHeight] zero,
    [lastBreak / pageHeight] is [NaN] or an infinity in JavaScript, so is
    [currentPage], [currentPage * pageHeight] is [NaN], and the loop test
    fails at once: the method returns the empty array. *)
Definition createAdditionalBreaks_on
    (calibrationOffset minBreakSpacing : Q)
    (lastBreak oldHeight newHeight pageHeight : Q)
    (fuel : nat) : option (list Q) :=
  if Qeq_bool pageHeight 0 then Some []
  else
    let currentPage := (Qfloor (lastBreak / pageHeight) + 1)%Z in
    createAdditionalBreaks_loop pageHeight oldHeight newHeight
      calibrationOffset minBreakSpacing fuel currentPage lastBreak [].

Definition createAdditionalBreaks (s : Settings)
    (lastBreak oldHeight newHeight pageHeight : Q) (fuel : nat)
    : option (list Q) :=
  createAdditionalBreaks_on (calibrationOffset s) (minBreakSpacing s)
    lastBreak oldHeight newHeight pageHeight fuel.

(** [existingBreaks.length > 0 ? existingBreaks[existingBreaks.length - 1] : 0]
    of [extendContainersIfNeeded]. *)
Definition lastBreakPosition (existingBreaks : list Q) : Q :=
  List.last existingBreaks 0.

(** The incremental extender as the view synchroniser calls it: resume
    after [existingBreaks], from [oldHeight] to [newHeight]. *)
Definition extendBreaks
    (existingBreaks : list Q) (oldHeight newHeight pageHeight
     calibrationOffset minBreakSpacing : Q) (fuel : nat) : option (list Q) :=
  createAdditionalBreaks_on calibrationOffset minBreakSpacing
    (lastBreakPosition existingBreaks) oldHeight newHeight pageHeight fuel.

End Breaks.

(** ** Markers, cache and view synchroniser *)

Module Sync.

Import Geometry Breaks.

(** Identity of a DOM element (the keys of the plugin's [Map]s). *)
Definition Elem : Type := positive.

(** [Math.round]. *)
Definition Math_round (x : Q) : Z := Qfloor (x + (1 # 2)).

(** The element built by [createBreakIndicator]: its [data-page] and
    [data-position] attributes, its [top] style and the text of the number
    badge, present when [showPageNumbers] is set. *)
Record BreakIndicator : Type := {
  data_page : nat;
  data_position : Z;
  top : Q;
  badge : option nat
}.

Definition createBreakIndicator (s : Settings) (position : Q)
    (pageNumber : nat) : BreakIndicator :=
  {| data_page := pageNumber;
     data_position := Math_round position;
     top := position;
     badge := if showPageNumbers s then Some pageNumber else None |}.

(** The overlay [div.page-break-container]: the pixel height of its style
    and its children in document order. *)
Record BreakContainer : Type := {
  style_height : Z;
  children : list BreakIndicator
}.

Definition appendChildren (container : BreakContainer)
    (fragment : list BreakIndicator) : BreakContainer :=
  {| style_height := style_height container;
     children := children container ++ fragment |}.

Definition renderPageBreaks (s : Settings) (container : BreakContainer)
    (breaks : list Q) : BreakContainer :=
  appendChildren container
    (imap (fun index breakY => createBreakIndicator s breakY (index + 2)%nat)
       breaks).

Definition renderAdditionalBreaks (s : Settings) (container : BreakContainer)
    (breaks : list Q) (startingPageNumber : nat) : BreakContainer :=
  appendChildren container
    (imap (fun index breakY =>
             createBreakIndicator s breakY (startingPageNumber + index)%nat)
       breaks).

(** What [updatePageBreaks] looks up in a view's content element. *)
Record ContentEl : Type := {
  previewEl : option Elem;          (* .markdown-preview-view *)
  editorContainer : option (option Elem)
                                    (* .cm-editor, and its .cm-scroller *)
}.

(** The host side: the markdown leaves (a view may have no content
    element) and the scroll height of every element. *)
Record Host : Type := {
  leaves : list (option ContentEl);
  scrollHeight : Elem -> Z
}.

(** The plugin object.  [computations] is a ghost counter of the runs of
    [calculateSimpleBreaks]; the program does not read it. *)
Record Plugin : Type := {
  settings : Settings;
  breakContainers : gmap Elem BreakContainer;
  calculatedBreaks : gmap Elem (list Q);
  observers : gset Elem;
  computations : nat
}.

Definition onload (s : Settings) : Plugin :=
  {| settings := s; breakContainers := ∅; calculatedBreaks := ∅;
     observers := ∅; computations := 0 |}.

(** [this.calculatedBreaks.clear()]. *)
Definition clearCalculatedBreaks (st : Plugin) : Plugin :=
  {| settings := settings st; breakContainers := breakContainers st;
     calculatedBreaks := ∅; observers := observers st;
     computations := computations st |}.

Definition createBreakContainer (host : Host) (targetEl : Elem)
    : BreakContainer :=
  {| style_height := scrollHeight host targetEl; children := [] |}.

Definition findTarget (element : ContentEl) : option Elem :=
  let scroller :=
    match editorContainer element with
    | Some c => c
    | None => None
    end in
  match scroller with
  | Some targetEl => Some targetEl
  | None => previewEl element
  end.

Definition updatePageBreaks (host : Host) (st : Plugin) (element : ContentEl)
    (fuel : nat) : option Plugin :=
  match findTarget element with
  | None => Some st
  | Some targetEl =>
      match calculatedBreaks st !! targetEl with
      | Some _ => Some st
      | None =>
          let breakContainer := createBreakContainer host targetEl in
          match calculateSimpleBreaks (settings st)
                  (scrollHeight host targetEl) fuel with
          | None => None
          | Some breaks =>
              let rendered :=
                if (0 <? length breaks)%nat
                then renderPageBreaks (settings st) breakContainer breaks
                else breakContainer in
              Some {| settings := settings st;
                      breakContainers :=
                        <[targetEl := rendered]>
                          (delete targetEl (breakContainers st));
                      calculatedBreaks :=
                        <[targetEl := breaks]> (calculatedBreaks st);
                      observers := {[targetEl]} ∪ observers st;
                      computations := S (computations st) |}
          end
      end
  end.

(** [leaves.forEach(...)] of [updateAllViews]. *)
Fixpoint updateLeaves (host : Host) (ls : list (option ContentEl))
    (st : Plugin) (fuel : nat) : option Plugin :=
  match ls with
  | [] => Some st
  | leaf :: rest =>
      match leaf with
      | Some contentEl =>
          match updatePageBreaks host st contentEl fuel with
          | Some st' => updateLeaves host rest st' fuel
          | None => None
          end
      | None => updateLeaves host rest st fuel
      end
  end.

Definition updateAllViews (host : Host) (st : Plugin) (fuel : nat)
    : option Plugin :=
  updateLeaves host (leaves host) (clearCalculatedBreaks st) fuel.

(** [saveSettings]: the new settings are already stored in
    [this.settings] when it runs. *)
Definition saveSettings (host : Host) (s : Settings) (st : Plugin)
    (fuel : nat) : option Plugin :=
  updateAllViews host
    {| settings := s; breakContainers := breakContainers st;
       calculatedBreaks := ∅; observers := observers st;
       computations := computations st |} fuel.

(** One iteration of the [forEach] of [extendContainersIfNeeded]. *)
Definition extendContainer (host : Host) (st : Plugin) (targetEl : Elem)
    (container : BreakContainer) (fuel : nat) : option Plugin :=
  let currentHeight := style_height container in
  let newHeight := scrollHeight host targetEl in
  if (currentHeight + 100 <? newHeight)%Z then
    let container' :=
      {| style_height := newHeight; children := children container |} in
    let pageHeight := getPageHeight (settings st) in
    let existingBreaks := default [] (calculatedBreaks st !! targetEl) in
    let lastBreakPosition := lastBreakPosition existingBreaks in
    match createAdditionalBreaks (settings st) lastBreakPosition
            (inject_Z currentHeight) (inject_Z newHeight) pageHeight fuel with
    | None => None
    | Some newBreaks =>
        if (0 <? length newBreaks)%nat then
          Some {| settings := settings st;
                  breakContainers :=
                    <[targetEl :=
                        renderAdditionalBreaks (settings st) container'
                          newBreaks (length existingBreaks + 2)]>
                      (breakContainers st);
                  calculatedBreaks :=
                    <[targetEl := existingBreaks ++ newBreaks]>
                      (calculatedBreaks st);
                  observers := observers st;
                  computations := computations st |}
        else
          Some {| settings := settings st;
                  breakContainers :=
                    <[targetEl := container']> (breakContainers st);
                  calculatedBreaks := calculatedBreaks st;
                  observers := observers st;
                  computations := computations st |}
    end
  else Some st.

(** [this.breakContainers.forEach(...)]: every iteration touches the
    entries of its own key only, so the order of the traversal does not
    show in the result. *)
Fixpoint extendEntries (host : Host) (entries : list (Elem * BreakContainer))
    (st : Plugin) (fuel : nat) : option Plugin :=
  match entries with
  | [] => Some st
  | (targetEl, container) :: rest =>
      match extendContainer host st targetEl container fuel with
      | Some st' => extendEntries host rest st' fuel
      | None => None
      end
  end.

Definition extendContainersIfNeeded (host : Host) (st : Plugin) (fuel : nat)
    : option Plugin :=
  extendEntries host (map_to_list (breakContainers st)) st fuel.

(** [removeAllPageBreaks]: every overlay leaves the document and the map
    of overlays is emptied. *)
Definition removeAllPageBreaks (st : Plugin) : Plugin :=
  {| settings := settings st; breakContainers := ∅;
     calculatedBreaks := calculatedBreaks st; observers := observers st;
     computations := computations st |}.

(** [recalibrate], up to the update it schedules: the cache is cleared and
    the overlays are removed; [updateAllViews] runs 100 ms later. *)
Definition recalibrate (st : Plugin) : Plugin :=
  removeAllPageBreaks (clearCalculatedBreaks st).

End Sync.

Import Geometry Breaks Sync.

(** ** Vocabulary of the statements *)

(** The offset proposed for page index [k]. *)
Definition candidate (pageHeight calibrationOffset : Q) (k : Z) : Q :=
  inject_Z k * pageHeight + calibrationOffset.

(** A bound on the iterations left from page index [cp]. *)
Definition pagesLeft (pageHeight totalHeight : Q) (cp : Z) : nat :=
  Z.to_nat (Qceiling (totalHeight / pageHeight) - cp).

(** What a run of the generator loop leaves behind: every element is the
    candidate of a page index inside the loop bound, that was far enough
    from the element before it, and the indices increase. *)
Fixpoint trace (pageHeight totalHeight calibrationOffset minBreakSpacing : Q)
    (l : list Q) (cp : Z) (lastY : Q) {struct l} : Prop :=
  match l with
  | [] => True
  | b :: t =>
      exists k : Z,
        (cp <= k)%Z /\ inject_Z k * pageHeight < totalHeight /\
        b = candidate pageHeight calibrationOffset k /\
        minBreakSpacing <= b - lastY /\
        trace pageHeight totalHeight calibrationOffset minBreakSpacing
          t (k + 1) b
  end.

(** Consecutive elements of a list are related by [R]. *)
Definition consecutive (R : Q -> Q -> Prop) (l : list Q) : Prop :=
  forall (i : nat) (a b : Q), l !! i = Some a -> l !! S i = Some b -> R a b.

(** Extension equivalence: the full generation on [newHeight] is the
    generation on [oldHeight] followed by what the extender adds to it. *)
Definition extension_equivalent
    (pageHeight calibrationOffset minBreakSpacing oldHeight newHeight : Q)
    : Prop :=
  exists existing full additional : list Q,
    Returns (calculateSimpleBreaks_on oldHeight pageHeight calibrationOffset
               minBreakSpacing) existing /\
    Returns (calculateSimpleBreaks_on newHeight pageHeight calibrationOffset
               minBreakSpacing) full /\
    Returns (extendBreaks existing oldHeight newHeight pageHeight
               calibrationOffset minBreakSpacing) additional /\
    full = existing ++ additional.

(** The page dimension [getPageHeight] selects: the height of the page
    size in portrait, its width otherwise. *)
Definition pageDimension (s : Settings) : Q :=
  match orientation s with
  | portrait => height (PAGE_DIMENSIONS (pageSize s))
  | landscape => width (PAGE_DIMENSIONS (pageSize s))
  end.

(** The markers of a break sequence numbered by position: the [N]th offset
    (counting from one) carries page number [N + 1]. *)
Definition markers (s : Settings) (breaks : list Q) : list BreakIndicator :=
  imap (fun index breakY => createBreakIndicator s breakY (index + 2)%nat)
    breaks.


(** Scenario 4 as the specification words it: with page height 900,
    minimum spacing 1000 and no calibration, the first offset is 900,
    1800 is left out and 2700 is in the sequence. *)
Definition scenario_four_as_stated (totalHeight : Q) : Prop :=
  exists (l : list Q) (b : Q) (rest : list Q),
    Returns (calculateSimpleBreaks_on totalHeight 900 0 1000) l /\
    l = b :: rest /\ b == 900 /\
    ~ Exists (Qeq 1800) l /\ Exists (Qeq 2700) l.

(** Offsets within one pixel of [px]. *)
Definition within_one_pixel (x px : Q) : Prop := px - 1 <= x <= px + 1.

(** The font family is one of the four keys of [FONT_METRICS] (the
    choices of the settings tab). *)
Definition knownFont (s : Settings) : Prop :=
  is_Some (FONT_METRICS (fontFamily s)).

(** Every cached sequence of [m] is still there in [m'], possibly with
    breaks added at its end. *)
Definition cache_extends (m m' : gmap Elem (list Q)) : Prop :=
  forall (t : Elem) (bs : list Q),
    m !! t = Some bs -> exists extra : list Q, m' !! t = Some (bs ++ extra).

(** Every overlay shows the markers of the sequence cached for its element
    (of the empty sequence when nothing is cached). *)
Definition overlay_shows_cache (st : Plugin) : Prop :=
  forall (t : Elem) (c : BreakContainer),
    breakContainers st !! t = Some c ->
    children c = markers (settings st) (default [] (calculatedBreaks st !! t)).

(** Every cached sequence is what the generator returns for the current
    settings and the scroll height of its element, and the overlay of the
    element has that height and shows the markers of the sequence. *)
Definition cache_sound (host : Host) (st : Plugin) : Prop :=
  forall (t : Elem) (bs : list Q),
    calculatedBreaks st !! t = Some bs ->
    Returns (calculateSimpleBreaks (settings st) (scrollHeight host t)) bs /\
    exists c : BreakContainer,
      breakContainers st !! t = Some c /\
      children c = markers (settings st) bs /\
      style_height c = scrollHeight host t.

(** The element [t] is the target of one of the views of the host. *)
Definition isTarget (host : Host) (t : Elem) : Prop :=
  exists element : ContentEl,
    In (Some element) (leaves host) /\ findTarget element = Some t.

(** ** Concrete inputs *)

(** A view in edit mode whose scroller is element 1. *)
Definition editor_view : ContentEl :=
  {| previewEl := None; editorContainer := Some (Some 1%positive) |}.

(** One markdown leaf in edit mode; its scroller is 2000 pixels high. *)
Definition host_one_editor : Host :=
  {| leaves := [Some editor_view]; scrollHeight := fun _ => 2000%Z |}.

(** The same leaf after its scroller has grown to 3000 pixels. *)
Definition host_grown : Host :=
  {| leaves := [Some editor_view]; scrollHeight := fun _ => 3000%Z |}.

(** The plugin after its first update cycle on [host_one_editor]. *)
Definition plugin_after_update : Plugin :=
  default (onload DEFAULT_SETTINGS)
    (updateAllViews host_one_editor (onload DEFAULT_SETTINGS) 5).

(** The overlay of that plugin for element 1. *)
Definition overlay_after_update : BreakContainer :=
  default (createBreakContainer host_one_editor 1%positive)
    (breakContainers plugin_after_update !! 1%positive).

(** The default configuration with a calibration offset of -30 pixels. *)
Definition settings_offset_minus_30 : Settings :=
  {| pageSize := A4; orientation := portrait;
     marginTop := 25.4; marginBottom := 25.4;
     marginLeft := 25.4; marginRight := 25.4;
     fontSize := 12; lineHeight := 1.5; fontFamily := "default";
     showPageNumbers := true; minBreakSpacing := 50;
     calibrationOffset := -30 |}.

(** One markdown leaf in edit mode; its scroller is 1820 pixels high. *)
Definition host_1820 : Host :=
  {| leaves := [Some editor_view]; scrollHeight := fun _ => 1820%Z |}.

(** The plugin with the offset of -30 after its first update cycle on
    [host_1820]. *)
Definition plugin_at_1820 : Plugin :=
  default (onload settings_offset_minus_30)
    (updateAllViews host_1820 (onload settings_offset_minus_30) 5).

(** What a plugin state shows for element [t]: the cached offsets rounded
    down to whole pixels, and the page numbers of the markers of the
    overlay. *)
Definition shown (st : Plugin) (t : Elem) : list Z * list nat :=
  (map Qfloor (default [] (calculatedBreaks st !! t)),
   match breakContainers st !! t with
   | Some c => map data_page (children c)
   | None => []
   end).

(** The default configuration turned to landscape. *)
Definition settings_landscape : Settings :=
  {| pageSize := A4; orientation := landscape;
     marginTop := 25.4; marginBottom := 25.4;
     marginLeft := 25.4; marginRight := 25.4;
     fontSize := 12; lineHeight := 1.5; fontFamily := "default";
     showPageNumbers := true; minBreakSpacing := 50;
     calibrationOffset := 0 |}.

(** Margins of 150 mm at the top and at the bottom of an A4 page. *)
Definition settings_wide_margins : Settings :=
  {| pageSize := A4; orientation := portrait;
     marginTop := 150; marginBottom := 150;
     marginLeft := 25.4; marginRight := 25.4;
     fontSize := 12; lineHeight := 1.5; fontFamily := "default";
     showPageNumbers := true; minBreakSpacing := 50;
     calibrationOffset := 0 |}.

(** * Properties *)

(** ** Boolean tests and page arithmetic *)

Lemma Qlt_bool_iff (x y : Q) : Qlt_bool x y = true <-> x < y.
Proof.
  unfold Qlt_bool. rewrite negb_true_iff.
  split; intros H.
  - apply Qnot_le_lt. intros Hle. apply Qle_bool_iff in Hle. congruence.
  - destruct (Qle_bool y x) eqn:E; [|reflexivity].
    apply Qle_bool_iff in E. lra.
Qed.

Lemma Qlt_bool_false_iff (x y : Q) : Qlt_bool x y = false <-> y <= x.
Proof.
  unfold Qlt_bool. rewrite negb_false_iff. apply Qle_bool_iff.
Qed.

Lemma Qle_bool_false_iff (x y : Q) : Qle_bool x y = false <-> y < x.
Proof.
  split; intros H.
  - apply Qnot_le_lt. intros Hle. apply Qle_bool_iff in Hle. congruence.
  - destruct (Qle_bool x y) eqn:E; [|reflexivity].
    apply Qle_bool_iff in E. lra.
Qed.

(** Case analysis on the first comparison of the goal, with the
    corresponding order fact in the context. *)
Ltac case_test :=
  match goal with
  | |- context [Qlt_bool ?x ?y] =>
      let E := fresh "Htest" in
      destruct (Qlt_bool x y) eqn:E;
      [apply Qlt_bool_iff in E | apply Qlt_bool_false_iff in E]
  | |- context [Qle_bool ?x ?y] =>
      let E := fresh "Htest" in
      destruct (Qle_bool x y) eqn:E;
      [apply Qle_bool_iff in E | apply Qle_bool_false_iff in E]
  end.

Lemma inject_Z_succ (k : Z) : inject_Z (k + 1) == inject_Z k + 1.
Proof. rewrite inject_Z_plus. reflexivity. Qed.

Lemma page_le (ph : Q) (j k : Z) :
  0 <= ph -> (j <= k)%Z -> inject_Z j * ph <= inject_Z k * ph.
Proof.
  intros Hph Hjk. apply Qmult_le_compat_r; [|exact Hph].
  rewrite <- Zle_Qle. exact Hjk.
Qed.

Lemma page_lt (ph : Q) (j k : Z) :
  0 < ph -> (j < k)%Z -> inject_Z j * ph < inject_Z k * ph.
Proof.
  intros Hph Hjk. apply Qmult_lt_compat_r; [exact Hph|].
  rewrite <- Zlt_Qlt. exact Hjk.
Qed.

Lemma page_lt_inv (ph : Q) (j k : Z) :
  0 < ph -> inject_Z j * ph < inject_Z k * ph -> (j < k)%Z.
Proof.
  intros Hph H. destruct (Z_lt_le_dec j k) as [Hlt|Hge]; [exact Hlt|].
  pose proof (page_le ph k j (Qlt_le_weak _ _ Hph) Hge). lra.
Qed.

(** ** The generator loop *)

Section Generator.

Variables pageHeight totalHeight calibrationOffset minBreakSpacing : Q.

Abbreviation loop :=
  (calculateSimpleBreaks_loop pageHeight totalHeight calibrationOffset
     minBreakSpacing).

Abbreviation cand := (candidate pageHeight calibrationOffset).
Abbreviation left := (pagesLeft pageHeight totalHeight).
Abbreviation traced :=
  (trace pageHeight totalHeight calibrationOffset minBreakSpacing).

Lemma loop_acc (fuel : nat) : forall (cp : Z) (lastY : Q) (acc : list Q),
  loop fuel cp lastY acc = option_map (app acc) (loop fuel cp lastY []).
Proof.
  induction fuel as [|fuel IH]; intros cp lastY acc; simpl; [reflexivity|].
  case_test; [|simpl; rewrite app_nil_r; reflexivity].
  case_test; [|apply IH].
  rewrite (IH _ _ (acc ++ _)), (IH _ _ [_]).
  destruct (loop fuel _ _ []) as [l|]; simpl; [|reflexivity].
  rewrite <- app_assoc. reflexivity.
Qed.

(** The loop as a list-producing recursion. *)
Lemma loop_step (fuel : nat) (cp : Z) (lastY : Q) :
  loop (S fuel) cp lastY [] =
  if Qlt_bool (inject_Z cp * pageHeight) totalHeight then
    if Qle_bool minBreakSpacing (cand cp - lastY) then
      option_map (cons (cand cp)) (loop fuel (cp + 1) (cand cp) [])
    else loop fuel (cp + 1) lastY []
  else Some [].
Proof.
  simpl. unfold candidate.
  case_test; [|reflexivity].
  case_test; [|reflexivity].
  rewrite loop_acc. reflexivity.
Qed.

Lemma loop_fuel_S (fuel : nat) : forall (cp : Z) (lastY : Q) (l : list Q),
  loop fuel cp lastY [] = Some l -> loop (S fuel) cp lastY [] = Some l.
Proof.
  induction fuel as [|fuel IH]; intros cp lastY l H; [discriminate|].
  rewrite loop_step in H. rewrite loop_step.
  case_test; [|exact H].
  case_test.
  - destruct (loop fuel _ _ []) as [t|] eqn:E; [|discriminate].
    rewrite (IH _ _ _ E). exact H.
  - apply IH. exact H.
Qed.

Lemma loop_fuel_le (fuel fuel' : nat) (cp : Z) (lastY : Q) (l : list Q) :
  (fuel <= fuel')%nat ->
  loop fuel cp lastY [] = Some l -> loop fuel' cp lastY [] = Some l.
Proof.
  induction 1 as [|m Hle IH]; intros H; [exact H|].
  apply loop_fuel_S, IH, H.
Qed.

Lemma loop_deterministic (f1 f2 : nat) (cp : Z) (lastY : Q) (l1 l2 : list Q) :
  loop f1 cp lastY [] = Some l1 -> loop f2 cp lastY [] = Some l2 -> l1 = l2.
Proof.
  intros H1 H2.
  apply (loop_fuel_le f1 (f1 + f2)) in H1; [|lia].
  apply (loop_fuel_le f2 (f1 + f2)) in H2; [|lia].
  congruence.
Qed.

(** With a positive page height the loop stops: the page indices below
    [totalHeight / pageHeight] are finitely many. *)
Lemma loop_terminates :
  0 < pageHeight ->
  forall (fuel : nat) (cp : Z) (lastY : Q),
    (left cp < fuel)%nat -> exists l, loop fuel cp lastY [] = Some l.
Proof.
  intros Hph. induction fuel as [|fuel IH]; intros cp lastY Hfuel; [lia|].
  rewrite loop_step.
  case_test; [|eexists; reflexivity].
  assert (Hlt : (cp < Qceiling (totalHeight / pageHeight))%Z).
  { apply (page_lt_inv pageHeight); [exact Hph|].
    pose proof (Qle_ceiling (totalHeight / pageHeight)) as Hc.
    apply (Qmult_le_compat_r _ _ pageHeight) in Hc; [|lra].
    assert (E : totalHeight / pageHeight * pageHeight == totalHeight)
      by (field; lra).
    lra. }
  assert (Hnext : (left (cp + 1) < fuel)%nat)
    by (unfold pagesLeft in *; lia).
  case_test.
  - destruct (IH (cp + 1)%Z (cand cp) Hnext) as [l Hl].
    rewrite Hl. eexists; reflexivity.
  - apply IH, Hnext.
Qed.

(** With a page height that is zero or negative and content of positive
    height the loop test never fails. *)
Lemma loop_diverges :
  pageHeight <= 0 -> 0 < totalHeight ->
  forall (fuel : nat) (cp : Z) (lastY : Q) (acc : list Q),
    (0 <= cp)%Z -> loop fuel cp lastY acc = None.
Proof.
  intros Hph Hth. induction fuel as [|fuel IH]; intros cp lastY acc Hcp;
    simpl; [reflexivity|].
  assert (Hpage : inject_Z cp * pageHeight <= 0).
  { assert (H0 : 0 <= inject_Z cp) by (rewrite <- (Zle_Qle 0); exact Hcp).
    nra. }
  case_test; [|lra].
  case_test; apply IH; lia.
Qed.

Lemma loop_trace (fuel : nat) : forall (cp : Z) (lastY : Q) (l : list Q),
  loop fuel cp lastY [] = Some l -> traced l cp lastY.
Proof.
  induction fuel as [|fuel IH]; intros cp lastY l H; [discriminate|].
  rewrite loop_step in H. revert H.
  case_test; [|intros [= <-]; exact I].
  case_test; intros H.
  - destruct (loop fuel _ _ []) as [t|] eqn:E; [|discriminate].
    injection H as <-. simpl. exists cp.
    repeat split; [lia|assumption|assumption|]. apply IH, E.
  - apply IH in H. destruct l as [|b t]; [exact I|].
    simpl in *. destruct H as (k & Hk & Hrest). exists k. split; [lia|exact Hrest].
Qed.

Lemma trace_candidates (l : list Q) : forall (cp : Z) (lastY : Q),
  traced l cp lastY ->
  Forall (fun b => exists k : Z,
            (cp <= k)%Z /\ inject_Z k * pageHeight < totalHeight /\
            b = cand k) l.
Proof.
  induction l as [|b t IH]; intros cp lastY H; [constructor|].
  simpl in H. destruct H as (k & Hk & Hlt & Hb & _ & Ht).
  constructor; [exists k; auto|].
  apply IH in Ht. eapply Forall_impl; [exact Ht|].
  intros x (k' & Hk' & Hrest). exists k'. split; [lia|exact Hrest].
Qed.

Lemma consecutive_cons (R : Q -> Q -> Prop) (a : Q) (t : list Q) :
  (forall b, head t = Some b -> R a b) -> consecutive R t ->
  consecutive R (a :: t).
Proof.
  intros Hhd Ht [|i] x y Hx Hy; simpl in *.
  - injection Hx as <-. apply Hhd. destruct t; simpl in *; congruence.
  - eapply Ht; eassumption.
Qed.

Lemma StronglySorted_consecutive (l : list Q) :
  StronglySorted Qlt l -> consecutive Qlt l.
Proof.
  induction 1 as [|a t Ht IH Hall]; [intros i ? ? [=]|].
  apply consecutive_cons; [|exact IH].
  intros b Hb. destruct t as [|c t']; [discriminate|].
  injection Hb as ->. apply Forall_inv in Hall. exact Hall.
Qed.

Lemma trace_spaced (l : list Q) : forall (cp : Z) (lastY : Q),
  traced l cp lastY ->
  consecutive (fun a b => minBreakSpacing <= b - a) l.
Proof.
  induction l as [|b t IH]; intros cp lastY H; [intros i ? ? [=]|].
  simpl in H. destruct H as (k & _ & _ & _ & _ & Ht).
  apply consecutive_cons; [|eapply IH, Ht].
  intros c Hc. destruct t as [|c' t']; [discriminate|].
  injection Hc as ->. simpl in Ht. destruct Ht as (k' & _ & _ & _ & Hsp & _).
  exact Hsp.
Qed.

Lemma trace_sorted (l : list Q) :
  0 < pageHeight ->
  forall (cp : Z) (lastY : Q), traced l cp lastY -> StronglySorted Qlt l.
Proof.
  intros Hph. induction l as [|b t IH]; intros cp lastY H; [constructor|].
  pose proof H as Hall. simpl in H.
  destruct H as (k & Hk & Hlt & Hb & _ & Ht).
  constructor; [eapply IH, Ht|].
  apply trace_candidates in Ht. eapply Forall_impl; [exact Ht|].
  intros x (k' & Hk' & _ & ->). subst b. unfold candidate.
  assert (Hkk : (k < k')%Z) by lia.
  pose proof (page_lt pageHeight k k' Hph Hkk). lra.
Qed.

Lemma trace_below (l : list Q) (cp : Z) (lastY : Q) :
  traced l cp lastY -> Forall (fun b => b - calibrationOffset < totalHeight) l.
Proof.
  intros H. apply trace_candidates in H. eapply Forall_impl; [exact H|].
  intros x (k & _ & Hlt & ->). unfold candidate. lra.
Qed.

Lemma trace_at_least_spacing (l : list Q) (cp : Z) :
  0 < pageHeight ->
  traced l cp 0 -> Forall (fun b => minBreakSpacing <= b) l.
Proof.
  intros Hph H. pose proof (trace_sorted l Hph cp 0 H) as Hs.
  destruct l as [|b t]; [constructor|].
  simpl in H. destruct H as (k & _ & _ & _ & Hsp & _).
  apply StronglySorted_inv in Hs. destruct Hs as [_ Hs].
  constructor; [lra|].
  eapply Forall_impl; [exact Hs|]. intros x Hx. simpl in Hx. lra.
Qed.

End Generator.

(** ** The extender loop *)

Lemma last_cons (b d : Q) (t : list Q) : List.last (b :: t) d = List.last t b.
Proof.
  revert b d. induction t as [|a t IH]; intros b d; [reflexivity|].
  change (List.last (b :: a :: t) d) with (List.last (a :: t) d).
  rewrite (IH a d). symmetry. apply (IH a b).
Qed.

Lemma Forall_last (P : Q -> Prop) (l : list Q) (d : Q) :
  Forall P l -> P d -> P (List.last l d).
Proof.
  intros Hl. revert d. induction Hl as [|b t Hb Ht IH]; intros d Hd; [exact Hd|].
  rewrite last_cons. apply IH, Hb.
Qed.

Lemma floor_div_lower (ph x : Q) (j : Z) :
  0 < ph -> inject_Z j * ph <= x -> (j <= Qfloor (x / ph))%Z.
Proof.
  intros Hph H. rewrite <- (Qfloor_Z j). apply Qfloor_resp_le.
  apply Qle_shift_div_l; assumption.
Qed.

Lemma floor_div_upper (ph x : Q) (j : Z) :
  0 < ph -> x < inject_Z (j + 1) * ph -> (Qfloor (x / ph) <= j)%Z.
Proof.
  intros Hph H.
  assert (Hq : x / ph < inject_Z (j + 1)) by (apply Qlt_shift_div_r; assumption).
  pose proof (Qfloor_le (x / ph)) as Hf.
  assert (Hlt : inject_Z (Qfloor (x / ph)) < inject_Z (j + 1)) by lra.
  rewrite <- Zlt_Qlt in Hlt. lia.
Qed.

Section Extender.

Variables pageHeight calibrationOffset minBreakSpacing : Q.
Variables oldHeight newHeight : Q.

Abbreviation gen th :=
  (calculateSimpleBreaks_loop pageHeight th calibrationOffset minBreakSpacing).
Abbreviation ext :=
  (createAdditionalBreaks_loop pageHeight oldHeight newHeight
     calibrationOffset minBreakSpacing).
Abbreviation cand := (candidate pageHeight calibrationOffset).

Lemma ext_acc (fuel : nat) : forall (cp : Z) (lastY : Q) (acc : list Q),
  ext fuel cp lastY acc = option_map (app acc) (ext fuel cp lastY []).
Proof.
  induction fuel as [|fuel IH]; intros cp lastY acc; simpl; [reflexivity|].
  case_test; [|simpl; rewrite app_nil_r; reflexivity].
  destruct (_ && _); [|apply IH].
  rewrite (IH _ _ (acc ++ _)), (IH _ _ [_]).
  destruct (ext fuel _ _ []) as [l|]; simpl; [|reflexivity].
  rewrite <- app_assoc. reflexivity.
Qed.

Lemma ext_step (fuel : nat) (cp : Z) (lastY : Q) :
  ext (S fuel) cp lastY [] =
  if Qlt_bool (inject_Z cp * pageHeight) newHeight then
    if Qle_bool minBreakSpacing (cand cp - lastY)
       && Qlt_bool oldHeight (cand cp) then
      option_map (cons (cand cp)) (ext fuel (cp + 1) (cand cp) [])
    else ext fuel (cp + 1) lastY []
  else Some [].
Proof.
  simpl. unfold candidate.
  case_test; [|reflexivity].
  destruct (_ && _); [|reflexivity].
  rewrite ext_acc. reflexivity.
Qed.

(** From a page index on after which every candidate lies beyond
    [oldHeight], the extender loop is the generator loop on [newHeight]. *)
Lemma ext_same (K : Z) :
  (forall k : Z, (K <= k)%Z -> oldHeight < cand k) ->
  forall (fuel : nat) (cp : Z) (lastY : Q),
    (K <= cp)%Z -> ext fuel cp lastY [] = gen newHeight fuel cp lastY [].
Proof.
  intros Hguard. induction fuel as [|fuel IH]; intros cp lastY Hcp;
    [reflexivity|].
  rewrite ext_step, loop_step.
  case_test; [|reflexivity].
  rewrite (proj2 (Qlt_bool_iff _ _) (Hguard cp Hcp)), andb_true_r.
  case_test; rewrite IH by lia; reflexivity.
Qed.

(** Page indices whose candidate is too close to [lastY] or not beyond
    [oldHeight] are passed over. *)
Lemma ext_skip (n : nat) : forall (p : Z) (lastY : Q) (fuel : nat),
  (forall k : Z, (p <= k < p + Z.of_nat n)%Z ->
     inject_Z k * pageHeight < newHeight /\
     (cand k - lastY < minBreakSpacing \/ cand k <= oldHeight)) ->
  ext (n + fuel) p lastY [] = ext fuel (p + Z.of_nat n) lastY [].
Proof.
  induction n as [|n IH]; intros p lastY fuel H.
  - simpl. rewrite Z.add_0_r. reflexivity.
  - change (S n + fuel)%nat with (S (n + fuel)). rewrite ext_step.
    destruct (H p) as [Hlt Hrej]; [lia|].
    rewrite (proj2 (Qlt_bool_iff _ _) Hlt).
    assert (Hno : Qle_bool minBreakSpacing (cand p - lastY)
                  && Qlt_bool oldHeight (cand p) = false).
    { destruct Hrej as [Hsp|Hold].
      - rewrite (proj2 (Qle_bool_false_iff _ _) Hsp). reflexivity.
      - rewrite (proj2 (Qlt_bool_false_iff _ _) Hold). apply andb_false_r. }
    rewrite Hno.
    replace (p + Z.of_nat (S n))%Z with (p + 1 + Z.of_nat n)%Z by lia.
    apply IH. intros k Hk. apply H. lia.
Qed.

(** A run of the generator on [oldHeight] is a prefix of its run on
    [newHeight]; [K] is the page index at which the run on [oldHeight]
    stopped and [j] the last index it accepted. *)
Lemma gen_split :
  oldHeight <= newHeight ->
  forall (fuel : nat) (cp : Z) (lastY : Q) (lo : list Q),
    gen oldHeight fuel cp lastY [] = Some lo ->
    exists K j : Z,
      (cp <= K)%Z /\ (cp - 1 <= j < K)%Z /\
      oldHeight <= inject_Z K * pageHeight /\
      (forall k : Z, (cp <= k < K)%Z -> inject_Z k * pageHeight < oldHeight) /\
      (forall k : Z, (j < k < K)%Z ->
         cand k - List.last lo lastY < minBreakSpacing) /\
      (lo = [] /\ j = (cp - 1)%Z \/
       List.last lo lastY = cand j /\ (cp <= j)%Z) /\
      forall (f2 : nat) (l2 : list Q),
        gen newHeight f2 K (List.last lo lastY) [] = Some l2 ->
        gen newHeight (fuel + f2) cp lastY [] = Some (lo ++ l2).
Proof.
  intros Hle. induction fuel as [|fuel IH]; intros cp lastY lo H;
    [discriminate|].
  rewrite loop_step in H. revert H.
  case_test; [case_test|].
  - (* accepted *)
    intros H.
    destruct (gen oldHeight fuel (cp + 1) (cand cp) []) as [t|] eqn:E;
      [|discriminate].
    injection H as <-.
    destruct (IH _ _ _ E) as (K & j & HK & Hj & Hold & Hbelow & Hrej & Hlast & Hres).
    exists K, j. rewrite last_cons.
    split; [lia|]. split; [lia|]. split; [exact Hold|].
    split; [|split; [exact Hrej|split]].
    + intros k Hk. destruct (Z.eq_dec k cp) as [->|Hne]; [assumption|].
      apply Hbelow. lia.
    + right. destruct Hlast as [[-> ->]|[Hl Hcp]].
      * split; [|lia]. simpl. f_equal. lia.
      * split; [exact Hl|lia].
    + intros f2 l2 H2. change (S fuel + f2)%nat with (S (fuel + f2)).
      rewrite loop_step.
      assert (Hnew : inject_Z cp * pageHeight < newHeight) by lra.
      rewrite (proj2 (Qlt_bool_iff _ _) Hnew).
      rewrite (proj2 (Qle_bool_iff _ _) Htest0).
      rewrite (Hres _ _ H2). reflexivity.
  - (* rejected *)
    intros H.
    destruct (IH _ _ _ H) as (K & j & HK & Hj & Hold & Hbelow & Hrej & Hlast & Hres).
    assert (Hres' : forall (f2 : nat) (l2 : list Q),
               gen newHeight f2 K (List.last lo lastY) [] = Some l2 ->
               gen newHeight (S fuel + f2) cp lastY [] = Some (lo ++ l2)).
    { intros f2 l2 H2. change (S fuel + f2)%nat with (S (fuel + f2)).
      rewrite loop_step.
      assert (Hnew : inject_Z cp * pageHeight < newHeight) by lra.
      rewrite (proj2 (Qlt_bool_iff _ _) Hnew).
      rewrite (proj2 (Qle_bool_false_iff _ _) Htest0).
      apply Hres, H2. }
    assert (Hbelow' : forall k : Z, (cp <= k < K)%Z ->
               inject_Z k * pageHeight < oldHeight).
    { intros k Hk. destruct (Z.eq_dec k cp) as [->|Hne]; [assumption|].
      apply Hbelow. lia. }
    destruct Hlast as [[-> ->]|[Hl Hcp]].
    + exists K, (cp - 1)%Z.
      split; [lia|]. split; [lia|]. split; [exact Hold|].
      split; [exact Hbelow'|]. split; [|split; [left; split; reflexivity|exact Hres']].
      intros k Hk. simpl. destruct (Z.eq_dec k cp) as [->|Hne]; [exact Htest0|].
      apply (Hrej k). lia.
    + exists K, j.
      split; [lia|]. split; [lia|]. split; [exact Hold|].
      split; [exact Hbelow'|]. split; [exact Hrej|].
      split; [right; split; [exact Hl|lia]|exact Hres'].
  - (* the run on [oldHeight] stops here *)
    intros [= <-]. exists cp, (cp - 1)%Z.
    split; [lia|]. split; [lia|]. split; [exact Htest|].
    split; [intros k Hk; lia|]. split; [intros k Hk; lia|].
    split; [left; split; reflexivity|].
    intros f2 l2 H2. change ([] ++ l2) with l2.
    apply (loop_fuel_le _ _ _ _ f2); [lia|exact H2].
Qed.

Lemma ext_fuel_S (fuel : nat) : forall (cp : Z) (lastY : Q) (l : list Q),
  ext fuel cp lastY [] = Some l -> ext (S fuel) cp lastY [] = Some l.
Proof.
  induction fuel as [|fuel IH]; intros cp lastY l H; [discriminate|].
  rewrite ext_step in H. rewrite ext_step.
  case_test; [|exact H].
  destruct (_ && _).
  - destruct (ext fuel _ _ []) as [t|] eqn:E; [|discriminate].
    rewrite (IH _ _ _ E). exact H.
  - apply IH. exact H.
Qed.

Lemma ext_fuel_le (fuel fuel' : nat) (cp : Z) (lastY : Q) (l : list Q) :
  (fuel <= fuel')%nat ->
  ext fuel cp lastY [] = Some l -> ext fuel' cp lastY [] = Some l.
Proof.
  induction 1 as [|m Hle IH]; intros H; [exact H|].
  apply ext_fuel_S, IH, H.
Qed.

Lemma ext_deterministic (f1 f2 : nat) (cp : Z) (lastY : Q) (l1 l2 : list Q) :
  ext f1 cp lastY [] = Some l1 -> ext f2 cp lastY [] = Some l2 -> l1 = l2.
Proof.
  intros H1 H2.
  apply (ext_fuel_le f1 (f1 + f2)) in H1; [|lia].
  apply (ext_fuel_le f2 (f1 + f2)) in H2; [|lia].
  congruence.
Qed.

End Extender.

(** ** The generator: termination and results *)

Lemma generator_returns (totalHeight pageHeight calibrationOffset
    minBreakSpacing : Q) :
  0 < pageHeight ->
  exists l : list Q,
    Returns (calculateSimpleBreaks_on totalHeight pageHeight calibrationOffset
               minBreakSpacing) l.
Proof.
  intros Hph.
  destruct (loop_terminates pageHeight totalHeight calibrationOffset
              minBreakSpacing Hph (S (pagesLeft pageHeight totalHeight 1)) 1 0)
    as [l Hl]; [lia|].
  exists l, (S (pagesLeft pageHeight totalHeight 1)). exact Hl.
Qed.

Lemma generator_deterministic (totalHeight pageHeight calibrationOffset
    minBreakSpacing : Q) (l1 l2 : list Q) :
  Returns (calculateSimpleBreaks_on totalHeight pageHeight calibrationOffset
             minBreakSpacing) l1 ->
  Returns (calculateSimpleBreaks_on totalHeight pageHeight calibrationOffset
             minBreakSpacing) l2 ->
  l1 = l2.
Proof.
  intros [f1 H1] [f2 H2]. eapply loop_deterministic; eassumption.
Qed.

Lemma generator_trace (totalHeight pageHeight calibrationOffset
    minBreakSpacing : Q) (l : list Q) :
  Returns (calculateSimpleBreaks_on totalHeight pageHeight calibrationOffset
             minBreakSpacing) l ->
  trace pageHeight totalHeight calibrationOffset minBreakSpacing l 1 0.
Proof.
  intros [fuel H]. eapply loop_trace, H.
Qed.

(** Scenarios 2 and 3 of the specification. *)
Example scenario_two_breaks :
  option_map (map Qred) (calculateSimpleBreaks_on 2000 900 0 50 5)
  = Some [900; 1800].
Proof. vm_compute. reflexivity. Qed.

Example scenario_extension :
  option_map (map Qred) (extendBreaks [900; 1800] 2000 3000 900 0 50 5)
  = Some [2700].
Proof. vm_compute. reflexivity. Qed.

(** ** Claims on the generator *)

(** C8.  If [totalHeight <= pageHeight], break generation returns the empty
    sequence, whatever the calibration offset and the minimum spacing are:
    the loop test fails at page index 1.  (The page height need not even be
    positive.) *)
Theorem single_page_no_breaks
    (totalHeight pageHeight calibrationOffset minBreakSpacing : Q) :
  totalHeight <= pageHeight ->
  Returns (calculateSimpleBreaks_on totalHeight pageHeight calibrationOffset
             minBreakSpacing) [] /\
  forall l : list Q,
    Returns (calculateSimpleBreaks_on totalHeight pageHeight calibrationOffset
               minBreakSpacing) l -> l = [].
Proof.
  intros Hle.
  assert (H1 : calculateSimpleBreaks_on totalHeight pageHeight
                 calibrationOffset minBreakSpacing 1 = Some []).
  { unfold calculateSimpleBreaks_on. rewrite loop_step.
    assert (Hno : totalHeight <= inject_Z 1 * pageHeight).
    { change (inject_Z 1) with 1. lra. }
    rewrite (proj2 (Qlt_bool_false_iff _ _) Hno). reflexivity. }
  split; [exists 1%nat; exact H1|].
  intros l Hl. eapply generator_deterministic; [exact Hl|].
  exists 1%nat. exact H1.
Qed.

Lemma single_page_no_breaks_witness :
  800 <= 900 /\
  Returns (calculateSimpleBreaks_on 800 900 0 50) [].
Proof.
  split; [lra|]. apply (single_page_no_breaks 800 900 0 50). lra.
Defined.

(** C7.  For a positive page height and a non-negative minimum spacing the
    generated sequence exists, is strictly increasing, and consecutive
    offsets [(a, b)] satisfy [b - a >= minSpacing]. *)
Theorem breaks_increasing_and_spaced
    (totalHeight pageHeight calibrationOffset minBreakSpacing : Q) :
  0 < pageHeight -> 0 <= minBreakSpacing ->
  (exists l : list Q,
     Returns (calculateSimpleBreaks_on totalHeight pageHeight
                calibrationOffset minBreakSpacing) l) /\
  forall l : list Q,
    Returns (calculateSimpleBreaks_on totalHeight pageHeight
               calibrationOffset minBreakSpacing) l ->
    StronglySorted Qlt l /\
    consecutive (fun a b => a < b /\ minBreakSpacing <= b - a) l.
Proof.
  intros Hph Hms. split; [apply generator_returns, Hph|].
  intros l Hl. apply generator_trace in Hl.
  pose proof (trace_sorted _ _ _ _ l Hph _ _ Hl) as Hs.
  split; [exact Hs|].
  intros i a b Ha Hb. split.
  - apply (StronglySorted_consecutive l Hs i a b Ha Hb).
  - apply (trace_spaced _ _ _ _ l _ _ Hl i a b Ha Hb).
Qed.

Lemma breaks_increasing_and_spaced_witness :
  0 < 900 /\ 0 <= 50 /\
  forall l : list Q,
    Returns (calculateSimpleBreaks_on 2000 900 0 50) l ->
    StronglySorted Qlt l /\
    consecutive (fun a b => a < b /\ 50 <= b - a) l.
Proof.
  split; [lra|]. split; [lra|].
  apply (breaks_increasing_and_spaced 2000 900 0 50); lra.
Defined.

(** C10.  The spacing rule also holds against the top edge: the loop starts
    with the last accepted position at 0, so for a positive page height
    every offset of the generated sequence is at least [minSpacing]. *)
Theorem breaks_at_least_spacing_from_top
    (totalHeight pageHeight calibrationOffset minBreakSpacing : Q) :
  0 < pageHeight ->
  (exists l : list Q,
     Returns (calculateSimpleBreaks_on totalHeight pageHeight
                calibrationOffset minBreakSpacing) l) /\
  forall l : list Q,
    Returns (calculateSimpleBreaks_on totalHeight pageHeight
               calibrationOffset minBreakSpacing) l ->
    Forall (fun b => minBreakSpacing <= b) l.
Proof.
  intros Hph. split; [apply generator_returns, Hph|].
  intros l Hl. apply generator_trace in Hl.
  eapply trace_at_least_spacing; eassumption.
Qed.

Lemma breaks_at_least_spacing_from_top_witness :
  0 < 900 /\
  forall l : list Q,
    Returns (calculateSimpleBreaks_on 3000 900 0 1000) l ->
    Forall (fun b => 1000 <= b) l.
Proof.
  split; [lra|]. apply (breaks_at_least_spacing_from_top 3000 900 0 1000). lra.
Defined.

(** C5 as stated fails: with page height 900, calibration offset 200 and a
    container 1000 pixels high the generator returns the offset 1100. *)
Lemma offset_beyond_total_height :
  exists l : list Q,
    Returns (calculateSimpleBreaks_on 1000 900 200 50) l /\
    ~ Forall (fun b => b <= 1000) l.
Proof.
  eexists. split; [exists 3%nat; vm_compute; reflexivity|].
  intros H. apply Forall_inv in H. revert H. vm_compute. intros H. apply H.
  reflexivity.
Qed.

(** C5, amended.  The loop bound is on [pageIndex * pageHeight], not on the
    candidate: every offset [b] of the generated sequence satisfies
    [b - calibrationOffset < totalHeight], and so stays below
    [totalHeight] when the calibration offset is zero or negative. *)
Theorem breaks_below_total_height
    (totalHeight pageHeight calibrationOffset minBreakSpacing : Q) :
  0 < pageHeight ->
  (exists l : list Q,
     Returns (calculateSimpleBreaks_on totalHeight pageHeight
                calibrationOffset minBreakSpacing) l) /\
  forall l : list Q,
    Returns (calculateSimpleBreaks_on totalHeight pageHeight
               calibrationOffset minBreakSpacing) l ->
    Forall (fun b => b - calibrationOffset < totalHeight /\
                     (calibrationOffset <= 0 -> b <= totalHeight)) l.
Proof.
  intros Hph. split; [apply generator_returns, Hph|].
  intros l Hl. apply generator_trace, trace_below in Hl.
  eapply Forall_impl; [exact Hl|]. intros b Hb. simpl in Hb.
  split; [exact Hb|]. intros Hoff. lra.
Qed.

Lemma breaks_below_total_height_witness :
  0 < 900 /\
  forall l : list Q,
    Returns (calculateSimpleBreaks_on 2000 900 (-30) 50) l ->
    Forall (fun b => b - (-30) < 2000 /\ (-30 <= 0 -> b <= 2000)) l.
Proof.
  split; [lra|]. apply (breaks_below_total_height 2000 900 (-30) 50). lra.
Defined.

(** C3 as stated fails: on a container 3000 pixels high the generator
    returns [1800] alone; its first offset is not 900. *)
Lemma scenario_four_first_break_is_not_900 : ~ scenario_four_as_stated 3000.
Proof.
  intros (l & b & rest & Hl & El & Hb & _).
  assert (H : Returns (calculateSimpleBreaks_on 3000 900 0 1000) [1800])
    by (exists 5%nat; vm_compute; reflexivity).
  pose proof (generator_deterministic _ _ _ _ _ _ Hl H) as E.
  rewrite E in El. injection El as <- _.
  revert Hb. vm_compute. discriminate.
Qed.

(** C3, amended.  With page height 900, minimum spacing 1000, no
    calibration and any total height above 2700, the candidate 900 is
    rejected (900 - 0 < 1000), the first offset of the sequence is 1800,
    the candidate 2700 is rejected (2700 - 1800 = 900 < 1000), and every
    later offset is at least 3600. *)
Theorem scenario_four_first_break_is_1800 (totalHeight : Q) :
  2700 < totalHeight ->
  exists rest : list Q,
    Returns (calculateSimpleBreaks_on totalHeight 900 0 1000) (1800 :: rest) /\
    Forall (fun b => 3600 <= b) rest /\
    ~ Exists (Qeq 900) (1800 :: rest) /\
    ~ Exists (Qeq 2700) (1800 :: rest).
Proof.
  intros Hth.
  assert (Hph : 0 < 900) by lra.
  destruct (loop_terminates 900 totalHeight 0 1000 Hph
              (S (pagesLeft 900 totalHeight 4)) 4 1800) as [rest Hrest]; [lia|].
  exists rest.
  assert (Hfar : Forall (fun b => 3600 <= b) rest).
  { apply loop_trace, trace_candidates in Hrest.
    eapply Forall_impl; [exact Hrest|].
    intros x (k & Hk & _ & ->). unfold candidate.
    pose proof (page_le 900 4 k ltac:(lra) Hk) as Hp.
    change (inject_Z 4 * 900) with 3600 in Hp. lra. }
  split; [|split; [exact Hfar|split]].
  - exists (3 + S (pagesLeft 900 totalHeight 4))%nat.
    unfold calculateSimpleBreaks_on.
    change (3 + S (pagesLeft 900 totalHeight 4))%nat
      with (S (S (S (S (pagesLeft 900 totalHeight 4))))).
    rewrite loop_step.
    assert (H1 : Qlt_bool (inject_Z 1 * 900) totalHeight = true).
    { apply Qlt_bool_iff. change (inject_Z 1 * 900) with 900. lra. }
    rewrite H1.
    change (Qle_bool 1000 (candidate 900 0 1 - 0)) with false. cbv iota.
    rewrite loop_step.
    assert (H2 : Qlt_bool (inject_Z (1 + 1) * 900) totalHeight = true).
    { apply Qlt_bool_iff. change (inject_Z (1 + 1) * 900) with 1800. lra. }
    rewrite H2.
    change (Qle_bool 1000 (candidate 900 0 (1 + 1) - 0)) with true. cbv iota.
    change (candidate 900 0 (1 + 1)) with 1800.
    rewrite loop_step.
    assert (H3 : Qlt_bool (inject_Z (1 + 1 + 1) * 900) totalHeight = true).
    { apply Qlt_bool_iff. change (inject_Z (1 + 1 + 1) * 900) with 2700. lra. }
    rewrite H3.
    change (Qle_bool 1000 (candidate 900 0 (1 + 1 + 1) - 1800)) with false.
    cbv iota.
    change (1 + 1 + 1 + 1)%Z with 4%Z.
    rewrite Hrest. reflexivity.
  - intros H. apply Exists_cons in H. destruct H as [H|H].
    + revert H. vm_compute. discriminate.
    + apply Exists_exists in H. destruct H as (x & Hx & Ex).
      rewrite Forall_forall in Hfar. specialize (Hfar x Hx). simpl in Hfar.
      rewrite <- Ex in Hfar. lra.
  - intros H. apply Exists_cons in H. destruct H as [H|H].
    + revert H. vm_compute. discriminate.
    + apply Exists_exists in H. destruct H as (x & Hx & Ex).
      rewrite Forall_forall in Hfar. specialize (Hfar x Hx). simpl in Hfar.
      rewrite <- Ex in Hfar. lra.
Qed.

Lemma scenario_four_first_break_is_1800_witness :
  2700 < 3000 /\
  exists rest : list Q,
    Returns (calculateSimpleBreaks_on 3000 900 0 1000) (1800 :: rest) /\
    Forall (fun b => 3600 <= b) rest /\
    ~ Exists (Qeq 900) (1800 :: rest) /\
    ~ Exists (Qeq 2700) (1800 :: rest).
Proof.
  split; [lra|]. apply (scenario_four_first_break_is_1800 3000). lra.
Defined.

(** ** Extension equivalence *)

Lemma extender_deterministic (existing : list Q)
    (oldHeight newHeight pageHeight calibrationOffset minBreakSpacing : Q)
    (l1 l2 : list Q) :
  Returns (extendBreaks existing oldHeight newHeight pageHeight
             calibrationOffset minBreakSpacing) l1 ->
  Returns (extendBreaks existing oldHeight newHeight pageHeight
             calibrationOffset minBreakSpacing) l2 ->
  l1 = l2.
Proof.
  unfold extendBreaks, createAdditionalBreaks_on. intros [f1 H1] [f2 H2].
  destruct (Qeq_bool pageHeight 0); [congruence|].
  eapply ext_deterministic; eassumption.
Qed.

(** The equivalence fails when [oldHeight] is an exact multiple of the
    page height: the candidate at [oldHeight] is not beyond [oldHeight], so
    the extender leaves it out, while the full generation on [newHeight]
    has it. *)
Lemma extension_misses_break_at_old_height :
  ~ extension_equivalent 900 0 50 1800 3000.
Proof.
  intros (lo & ln & le & Hlo & Hln & Hle & E).
  assert (H1 : Returns (calculateSimpleBreaks_on 1800 900 0 50) [900])
    by (exists 5%nat; vm_compute; reflexivity).
  assert (H2 : Returns (calculateSimpleBreaks_on 3000 900 0 50)
                 [900; 1800; 2700])
    by (exists 5%nat; vm_compute; reflexivity).
  assert (H3 : Returns (extendBreaks [900] 1800 3000 900 0 50) [2700])
    by (exists 5%nat; vm_compute; reflexivity).
  rewrite (generator_deterministic _ _ _ _ _ _ Hlo H1) in *.
  rewrite (generator_deterministic _ _ _ _ _ _ Hln H2) in *.
  rewrite (extender_deterministic _ _ _ _ _ _ _ _ Hle H3) in *.
  discriminate E.
Qed.

(** A calibration offset of a page height or more makes the extender resume
    one page index too far: the equivalence fails there too. *)
Example extension_skips_page_with_large_offset :
  ~ extension_equivalent 100 100 0 250 450.
Proof.
  intros (lo & ln & le & Hlo & Hln & Hle & E).
  assert (H1 : Returns (calculateSimpleBreaks_on 250 100 100 0) [200; 300])
    by (exists 6%nat; vm_compute; reflexivity).
  assert (H2 : Returns (calculateSimpleBreaks_on 450 100 100 0)
                 [200; 300; 400; 500])
    by (exists 6%nat; vm_compute; reflexivity).
  assert (H3 : Returns (extendBreaks [200; 300] 250 450 100 100 0) [500])
    by (exists 6%nat; vm_compute; reflexivity).
  rewrite (generator_deterministic _ _ _ _ _ _ Hlo H1) in *.
  rewrite (generator_deterministic _ _ _ _ _ _ Hln H2) in *.
  rewrite (extender_deterministic _ _ _ _ _ _ _ _ Hle H3) in *.
  discriminate E.
Qed.

(** C1, the code at the failing inputs.  The extender loses a break that
    the full generation has.  With page height 900, no calibration and
    spacing 50, the generator gives [900] on 1800 and [900; 1800; 2700] on
    3000, but the extender called with [900], 1800 and 3000 returns [2700]
    only: the candidate 1800 is not beyond [oldHeight].  In the plugin,
    with the default settings and a calibration offset of -30, a view
    computed at 1820 pixels (one break, near 886) and grown to 3000 gets
    from [extendContainersIfNeeded] the breaks near 886 and 2719 with page
    numbers 2 and 3, where a full update cycle on the same view gives 886,
    1803 and 2719 with page numbers 2, 3 and 4. *)
Theorem extension_loses_break_at_old_height :
  Returns (calculateSimpleBreaks_on 1800 900 0 50) [900] /\
  Returns (calculateSimpleBreaks_on 3000 900 0 50) [900; 1800; 2700] /\
  Returns (extendBreaks [900] 1800 3000 900 0 50) [2700] /\
  ~ extension_equivalent 900 0 50 1800 3000 /\
  shown plugin_at_1820 1%positive = ([886%Z], [2%nat]) /\
  option_map (fun st => shown st 1%positive)
    (extendContainersIfNeeded host_grown plugin_at_1820 5)
  = Some ([886%Z; 2719%Z], [2%nat; 3%nat]) /\
  option_map (fun st => shown st 1%positive)
    (updateAllViews host_grown plugin_at_1820 5)
  = Some ([886%Z; 1803%Z; 2719%Z], [2%nat; 3%nat; 4%nat]).
Proof.
  split; [exists 5%nat; vm_compute; reflexivity|].
  split; [exists 5%nat; vm_compute; reflexivity|].
  split; [exists 5%nat; vm_compute; reflexivity|].
  split; [exact extension_misses_break_at_old_height|].
  repeat split; vm_compute; reflexivity.
Qed.

(** When the extender does agree with the generator.  For
    [pageHeight > 0], [minSpacing >= 0],
    [calibrationOffset < pageHeight] and [oldHeight < newHeight], provided
    that no page boundary [k * pageHeight] at or above [oldHeight] has its
    candidate [k * pageHeight + calibrationOffset] at or below [oldHeight]
    (with a zero offset: [oldHeight] is not an exact multiple of the page
    height; with a positive offset: always), the generation on
    [newHeight] is the generation on [oldHeight] followed by the breaks the
    extender returns for that sequence. *)
Theorem extension_equivalence
    (pageHeight calibrationOffset minBreakSpacing oldHeight newHeight : Q) :
  0 < pageHeight -> 0 <= minBreakSpacing ->
  calibrationOffset < pageHeight ->
  oldHeight < newHeight ->
  (forall k : Z, (1 <= k)%Z -> oldHeight <= inject_Z k * pageHeight ->
     oldHeight < inject_Z k * pageHeight + calibrationOffset) ->
  extension_equivalent pageHeight calibrationOffset minBreakSpacing
    oldHeight newHeight.
Proof.
  intros Hph Hms Hoff Hgrow Hside.
  destruct (loop_terminates pageHeight oldHeight calibrationOffset
              minBreakSpacing Hph (S (pagesLeft pageHeight oldHeight 1)) 1 0)
    as [lo Hlo]; [lia|].
  destruct (gen_split pageHeight calibrationOffset minBreakSpacing oldHeight
              newHeight (Qlt_le_weak _ _ Hgrow) _ _ _ _ Hlo)
    as (K & j & HK & Hj & Hold & Hbelow & Hrej & Hlast & Hres).
  set (lastY := List.last lo 0) in *.
  destruct (loop_terminates pageHeight newHeight calibrationOffset
              minBreakSpacing Hph (S (pagesLeft pageHeight newHeight K))
              K lastY) as [l2 Hl2]; [lia|].
  exists lo, (lo ++ l2), l2.
  split; [eexists; exact Hlo|]. split; [eexists; apply Hres, Hl2|].
  split; [|reflexivity].
  (* the extender *)
  assert (Hlast0 : 0 <= lastY).
  { apply Forall_last; [|lra].
    apply loop_trace, trace_at_least_spacing in Hlo; [|exact Hph].
    eapply Forall_impl; [exact Hlo|]. intros x Hx. simpl in Hx. lra. }
  assert (Hup : lastY < inject_Z (j + 1) * pageHeight).
  { rewrite inject_Z_succ. destruct Hlast as [[El Ej]|[El Ej]].
    - unfold lastY. rewrite El, Ej. simpl.
      replace (1 - 1)%Z with 0%Z by lia. change (inject_Z 0) with 0. lra.
    - rewrite El. unfold candidate. lra. }
  assert (Hlow : 0 <= calibrationOffset -> inject_Z j * pageHeight <= lastY).
  { intros Hpos. destruct Hlast as [[El Ej]|[El Ej]].
    - unfold lastY. rewrite El, Ej. simpl.
      replace (1 - 1)%Z with 0%Z by lia. change (inject_Z 0) with 0. lra.
    - rewrite El. unfold candidate. lra. }
  set (p0 := (Qfloor (lastY / pageHeight) + 1)%Z).
  assert (Hp1 : (1 <= p0)%Z).
  { assert (H0 : inject_Z 0 * pageHeight <= lastY)
      by (change (inject_Z 0) with 0; lra).
    pose proof (floor_div_lower pageHeight lastY 0 Hph H0). lia. }
  assert (HpK : (p0 <= K)%Z).
  { pose proof (floor_div_upper pageHeight lastY j Hph Hup). lia. }
  assert (Hpj : 0 <= calibrationOffset -> (j < p0)%Z).
  { intros Hpos.
    pose proof (floor_div_lower pageHeight lastY j Hph (Hlow Hpos)). lia. }
  assert (Hguard : forall k : Z, (K <= k)%Z ->
             oldHeight < candidate pageHeight calibrationOffset k).
  { intros k Hk. unfold candidate. apply Hside; [lia|].
    pose proof (page_le pageHeight K k (Qlt_le_weak _ _ Hph) Hk). lra. }
  exists (Z.to_nat (K - p0) + S (pagesLeft pageHeight newHeight K))%nat.
  unfold extendBreaks, createAdditionalBreaks_on, lastBreakPosition.
  fold lastY.
  destruct (Qeq_bool pageHeight 0) eqn:E0;
    [apply Qeq_bool_iff in E0; lra|].
  cbv zeta. fold p0.
  rewrite ext_skip.
  - replace (p0 + Z.of_nat (Z.to_nat (K - p0)))%Z with K by lia.
    rewrite (ext_same _ _ _ _ _ K Hguard) by lia. exact Hl2.
  - intros k Hk.
    assert (Hk1 : (1 <= k < K)%Z) by lia.
    pose proof (Hbelow k Hk1) as Hkold.
    split; [lra|].
    destruct (Qlt_le_dec calibrationOffset 0) as [Hneg|Hpos].
    + right. unfold candidate. lra.
    + left. apply Hrej. specialize (Hpj Hpos). lia.
Qed.

Lemma extension_equivalence_witness :
  0 < 900 /\ 0 <= 50 /\ 0 < 900 /\ 2000 < 3000 /\
  extension_equivalent 900 0 50 2000 3000.
Proof.
  split; [lra|]. split; [lra|]. split; [lra|]. split; [lra|].
  apply (extension_equivalence 900 0 50 2000 3000); try lra.
  intros k Hk. unfold Qle, Qlt. simpl. lia.
Defined.

(** ** The geometry resolver *)

Lemma fontMetric_pos (name : string) :
  0 < or_default (FONT_METRICS name) 1.0.
Proof.
  unfold FONT_METRICS.
  repeat match goal with
         | |- context [String.eqb ?a ?b] => destruct (String.eqb a b)
         end; vm_compute; reflexivity.
Qed.

Lemma getPageHeight_factor (s : Settings) :
  getPageHeight s ==
  (pageDimension s - (marginTop s + marginBottom s))
  * (pixelsPerMm * or_default (FONT_METRICS (fontFamily s)) 1.0 * 0.985).
Proof.
  unfold getPageHeight, pageDimension. destruct (orientation s); ring.
Qed.

Lemma getPageHeight_nonpositive (s : Settings) :
  pageDimension s <= marginTop s + marginBottom s -> getPageHeight s <= 0.
Proof.
  intros H. rewrite getPageHeight_factor.
  pose proof (fontMetric_pos (fontFamily s)) as Hfm.
  assert (Hppm : 0 < pixelsPerMm) by (vm_compute; reflexivity).
  set (fm := or_default _ _) in *. set (ppm := pixelsPerMm) in *.
  assert (Hc : 0 <= ppm * fm * 0.985).
  { apply Qmult_le_0_compat; [|lra].
    apply Qmult_le_0_compat; lra. }
  set (c := ppm * fm * 0.985) in *.
  assert (Hx : pageDimension s - (marginTop s + marginBottom s) <= 0) by lra.
  set (x := pageDimension s - _) in *. nra.
Qed.

(** C6 as stated fails: the page height of the default configuration is
    not within one pixel of 914.7. *)
Lemma default_page_height_is_not_914_7 :
  ~ within_one_pixel (getPageHeight DEFAULT_SETTINGS) 914.7.
Proof.
  unfold within_one_pixel. vm_compute. intros [_ H]. apply H. reflexivity.
Qed.

(** C6, amended.  For the configuration [{pageSize: A4, orientation:
    portrait, marginTop: 25.4, marginBottom: 25.4, fontFamily: default,
    calibrationOffset: 0, minBreakSpacing: 50}] the geometry resolver
    returns [(297 - 50.8) * 96/25.4 * 1.0 * 0.985], which is about 916.56
    pixels: between 916.56 and 916.57, so within one pixel of 916.56. *)
Theorem default_page_height :
  getPageHeight DEFAULT_SETTINGS == (297 - 50.8) * (96 / 25.4) * 1.0 * 0.985 /\
  916.56 < getPageHeight DEFAULT_SETTINGS < 916.57 /\
  within_one_pixel (getPageHeight DEFAULT_SETTINGS) 916.56.
Proof.
  unfold within_one_pixel. vm_compute. repeat split; discriminate.
Qed.

(** ** A page height that is zero or negative *)

Lemma generator_diverges (s : Settings) (scrollHeight : Z) :
  getPageHeight s <= 0 -> (0 < scrollHeight)%Z ->
  Diverges (calculateSimpleBreaks s scrollHeight).
Proof.
  intros Hph Hh fuel. unfold calculateSimpleBreaks, calculateSimpleBreaks_on.
  apply loop_diverges; [exact Hph| |lia].
  rewrite (Zlt_Qlt 0) in Hh. exact Hh.
Qed.

(** C4, the code at the failing inputs.  When the top and bottom margins
    take up the whole page dimension, [getPageHeight] is zero or negative
    and, for a view whose breaks are not cached and whose content has a
    positive height, the loop of [calculateSimpleBreaks] never stops:
    [updatePageBreaks] does not return, with however much fuel. *)
Theorem update_never_returns_with_full_margins
    (host : Host) (st : Plugin) (element : ContentEl) (targetEl : Elem) :
  pageDimension (settings st)
    <= marginTop (settings st) + marginBottom (settings st) ->
  findTarget element = Some targetEl ->
  calculatedBreaks st !! targetEl = None ->
  (0 < scrollHeight host targetEl)%Z ->
  Diverges (updatePageBreaks host st element).
Proof.
  intros Hm Ht Hc Hh fuel. unfold updatePageBreaks. rewrite Ht, Hc.
  rewrite (generator_diverges (settings st) _
             (getPageHeight_nonpositive _ Hm) Hh fuel).
  reflexivity.
Qed.

Lemma update_never_returns_with_full_margins_witness :
  pageDimension settings_wide_margins <= 150 + 150 /\
  Diverges (updatePageBreaks host_one_editor (onload settings_wide_margins)
              editor_view).
Proof.
  split; [vm_compute; discriminate|].
  apply (update_never_returns_with_full_margins host_one_editor
           (onload settings_wide_margins) editor_view 1%positive).
  - vm_compute. discriminate.
  - reflexivity.
  - reflexivity.
  - reflexivity.
Defined.

(** The same for a whole update cycle. *)
Lemma updateAllViews_never_returns_with_full_margins :
  Diverges (updateAllViews host_one_editor (onload settings_wide_margins)).
Proof.
  intros fuel.
  assert (H : calculateSimpleBreaks settings_wide_margins 2000 fuel = None).
  { apply generator_diverges; [|reflexivity].
    apply getPageHeight_nonpositive. vm_compute. discriminate. }
  unfold updateAllViews. cbn [leaves host_one_editor updateLeaves].
  unfold updatePageBreaks.
  cbn [findTarget editor_view editorContainer previewEl calculatedBreaks
       clearCalculatedBreaks onload settings scrollHeight].
  rewrite lookup_empty.
  change (scrollHeight host_one_editor 1%positive) with 2000%Z.
  rewrite H. reflexivity.
Qed.

(** ** Page numbers *)

Lemma renderPageBreaks_children (s : Settings) (c : BreakContainer)
    (breaks : list Q) :
  children (renderPageBreaks s c breaks) = children c ++ markers s breaks.
Proof. reflexivity. Qed.

Lemma renderAdditionalBreaks_continues (s : Settings) (c : BreakContainer)
    (existing additional : list Q) :
  renderAdditionalBreaks s (renderPageBreaks s c existing) additional
    (length existing + 2)
  = renderPageBreaks s c (existing ++ additional).
Proof.
  unfold renderAdditionalBreaks, renderPageBreaks, appendChildren. simpl.
  f_equal. rewrite <- app_assoc. f_equal. rewrite imap_app. f_equal.
  apply imap_ext. intros i b _. simpl. f_equal. lia.
Qed.

(** The two rendering functions on their own.  [renderPageBreaks] appends
    the markers of the sequence, the offset at (zero-based) index [i], the
    [(i+1)]th, carrying page number [i + 2], so the first one carries 2;
    and rendering additional breaks from [existing-length + 2], as
    [extendContainersIfNeeded] does, gives the numbering of the combined
    sequence: the first appended break carries [existing-length + 2]. *)
Theorem page_numbers_are_positional (s : Settings) (c : BreakContainer)
    (existing additional : list Q) :
  children (renderPageBreaks s c existing)
    = children c ++ markers s existing /\
  (forall (i : nat) (b : Q),
     existing !! i = Some b ->
     exists m : BreakIndicator,
       markers s existing !! i = Some m /\ top m = b /\
       data_page m = (i + 1 + 1)%nat) /\
  renderAdditionalBreaks s (renderPageBreaks s c existing) additional
    (length existing + 2)
    = renderPageBreaks s c (existing ++ additional) /\
  (forall (b : Q) (rest : list Q),
     additional = b :: rest ->
     exists m : BreakIndicator,
       children (renderAdditionalBreaks s (renderPageBreaks s c existing)
                   additional (length existing + 2))
         !! (length (children c) + length existing)%nat = Some m /\
       top m = b /\ data_page m = (length existing + 2)%nat).
Proof.
  split; [reflexivity|]. split; [|split].
  - intros i b Hb. exists (createBreakIndicator s b (i + 2)).
    unfold markers. rewrite list_lookup_imap, Hb. simpl.
    repeat split. lia.
  - apply renderAdditionalBreaks_continues.
  - intros b rest ->. exists (createBreakIndicator s b (length existing + 2)).
    split; [|split; reflexivity].
    unfold renderAdditionalBreaks, renderPageBreaks, appendChildren. simpl.
    rewrite <- app_assoc, lookup_app_r by lia.
    replace (length (children c) + length existing - length (children c))%nat
      with (length existing) by lia.
    rewrite lookup_app_r by (rewrite length_imap; lia).
    rewrite length_imap, Nat.sub_diag. simpl.
    do 2 f_equal. lia.
Qed.

(** [updatePageBreaks] leaves the overlay of the view with the markers of
    the sequence it stores. *)
Lemma updatePageBreaks_numbering (host : Host) (st st' : Plugin)
    (element : ContentEl) (targetEl : Elem) (fuel : nat) :
  findTarget element = Some targetEl ->
  calculatedBreaks st !! targetEl = None ->
  updatePageBreaks host st element fuel = Some st' ->
  exists (breaks : list Q) (c : BreakContainer),
    calculatedBreaks st' !! targetEl = Some breaks /\
    breakContainers st' !! targetEl = Some c /\
    children c = markers (settings st') breaks.
Proof.
  intros Ht Hc H. unfold updatePageBreaks in H. rewrite Ht, Hc in H.
  destruct (calculateSimpleBreaks _ _ _) as [breaks|]; [|discriminate].
  injection H as <-. simpl. eexists _, _.
  rewrite !lookup_insert_eq. split; [reflexivity|]. split; [reflexivity|].
  destruct breaks; reflexivity.
Qed.

(** The call site in [extendContainersIfNeeded]: if the overlay shows the
    markers of the cached sequence, it still does after the extension. *)
Lemma extendContainer_numbering (host : Host) (st st' : Plugin)
    (targetEl : Elem) (container : BreakContainer) (fuel : nat) :
  breakContainers st !! targetEl = Some container ->
  children container
    = markers (settings st) (default [] (calculatedBreaks st !! targetEl)) ->
  extendContainer host st targetEl container fuel = Some st' ->
  exists c : BreakContainer,
    breakContainers st' !! targetEl = Some c /\
    children c
      = markers (settings st') (default [] (calculatedBreaks st' !! targetEl)).
Proof.
  intros Hc Hm H. unfold extendContainer in H.
  destruct (_ <? _)%Z; [|injection H as <-; eauto].
  destruct (createAdditionalBreaks _ _ _ _ _ _) as [newBreaks|]; [|discriminate].
  destruct (0 <? length newBreaks)%nat; injection H as <-; simpl;
    rewrite !lookup_insert_eq; eexists; (split; [reflexivity|]); simpl.
  - rewrite Hm. unfold markers. rewrite imap_app. f_equal.
    apply imap_ext. intros i b _. simpl. f_equal. lia.
  - exact Hm.
Qed.

(** C9.  Page numbers are positional, at the places that assign them.
    [renderPageBreaks] gives the offset at (zero-based) index [i], the
    [(i+1)]th, page number [i + 2], so the first one carries 2, and that
    is what [updatePageBreaks] leaves in the overlay of a view it
    computes.  In [extendContainersIfNeeded], for every plugin state, one
    iteration that returns appends to the cached sequence [existing] of
    its element (the empty one when nothing is cached) the breaks
    [createAdditionalBreaks] returns, and appends to the overlay one
    marker for each of them, the one at index [i] carrying page number
    [length existing + i + 2]: its position in the combined sequence plus
    one, the first appended break carrying [length existing + 2].  So an
    overlay that showed the markers of [existing] shows the markers of
    the combined sequence. *)
Theorem page_numbers_follow_position (host : Host) (st st' : Plugin)
    (t : Elem) (c : BreakContainer) (fuel : nat) :
  extendContainer host st t c fuel = Some st' ->
  (forall (s : Settings) (c0 : BreakContainer) (breaks : list Q) (i : nat)
          (b : Q),
     breaks !! i = Some b ->
     exists m : BreakIndicator,
       children (renderPageBreaks s c0 breaks)
         !! (length (children c0) + i)%nat = Some m /\
       top m = b /\ data_page m = (i + 1 + 1)%nat) /\
  (forall (host0 : Host) (st0 st1 : Plugin) (element : ContentEl)
          (fuel0 : nat),
     findTarget element = Some t ->
     calculatedBreaks st0 !! t = None ->
     updatePageBreaks host0 st0 element fuel0 = Some st1 ->
     exists (breaks : list Q) (c1 : BreakContainer),
       calculatedBreaks st1 !! t = Some breaks /\
       breakContainers st1 !! t = Some c1 /\
       children c1 = markers (settings st1) breaks) /\
  exists newBreaks : list Q,
    default [] (calculatedBreaks st' !! t)
      = default [] (calculatedBreaks st !! t) ++ newBreaks /\
    ((scrollHeight host t <= style_height c + 100)%Z ->
     st' = st /\ newBreaks = []) /\
    ((style_height c + 100 < scrollHeight host t)%Z ->
     createAdditionalBreaks (settings st)
       (lastBreakPosition (default [] (calculatedBreaks st !! t)))
       (inject_Z (style_height c)) (inject_Z (scrollHeight host t))
       (getPageHeight (settings st)) fuel = Some newBreaks /\
     exists c' : BreakContainer,
       breakContainers st' !! t = Some c' /\
       children c'
         = children c
           ++ imap (fun i b =>
                      createBreakIndicator (settings st) b
                        (length (default [] (calculatedBreaks st !! t))
                         + 2 + i)%nat)
                newBreaks /\
       (forall (i : nat) (b : Q),
          newBreaks !! i = Some b ->
          exists m : BreakIndicator,
            children c' !! (length (children c) + i)%nat = Some m /\
            top m = b /\
            data_page m
            = (length (default [] (calculatedBreaks st !! t)) + i + 1 + 1)%nat) /\
       (children c
          = markers (settings st) (default [] (calculatedBreaks st !! t)) ->
        children c'
          = markers (settings st')
              (default [] (calculatedBreaks st !! t) ++ newBreaks))).
Proof.
  intros H. split; [|split].
  - intros s c0 breaks i b Hb.
    exists (createBreakIndicator s b (i + 2)).
    unfold renderPageBreaks, appendChildren. simpl.
    rewrite lookup_app_r by lia.
    replace (length (children c0) + i - length (children c0))%nat with i
      by lia.
    rewrite list_lookup_imap, Hb. simpl. repeat split. lia.
  - intros host0 st0 st1 element fuel0 Ht Hc Hu.
    eapply updatePageBreaks_numbering; eassumption.
  - unfold extendContainer in H.
    set (existing := default [] (calculatedBreaks st !! t)) in *.
    destruct (style_height c + 100 <? scrollHeight host t)%Z eqn:Egrow.
    + apply Z.ltb_lt in Egrow.
      destruct (createAdditionalBreaks _ _ _ _ _ _) as [newBreaks|] eqn:Ecab;
        [|discriminate].
      assert (Hnum : forall (cs : list BreakIndicator) (i : nat) (b : Q),
                 newBreaks !! i = Some b ->
                 exists m : BreakIndicator,
                   (cs ++ imap (fun i b =>
                                  createBreakIndicator (settings st) b
                                    (length existing + 2 + i)%nat) newBreaks)
                     !! (length cs + i)%nat = Some m /\
                   top m = b /\
                   data_page m = (length existing + i + 1 + 1)%nat).
      { intros cs i b Hb.
        exists (createBreakIndicator (settings st) b (length existing + 2 + i)).
        rewrite lookup_app_r by lia.
        replace (length cs + i - length cs)%nat with i by lia.
        rewrite list_lookup_imap, Hb. simpl. repeat split. lia. }
      assert (Hstep : forall cs : list BreakIndicator,
                 cs = markers (settings st) existing ->
                 cs ++ imap (fun i b =>
                               createBreakIndicator (settings st) b
                                 (length existing + 2 + i)%nat) newBreaks
                 = markers (settings st) (existing ++ newBreaks)).
      { intros cs ->. unfold markers. rewrite imap_app. f_equal.
        apply imap_ext. intros i b _. simpl. f_equal. lia. }
      exists newBreaks.
      destruct (0 <? length newBreaks)%nat eqn:Elen; injection H as <-; simpl.
      * rewrite !lookup_insert_eq. simpl.
        split; [reflexivity|]. split; [intros Hsmall; lia|].
        intros _. split; [reflexivity|].
        eexists. split; [reflexivity|]. simpl.
        split; [reflexivity|]. split; [apply Hnum|apply Hstep].
      * assert (newBreaks = []) as ->
          by (destruct newBreaks; [reflexivity|discriminate]).
        rewrite lookup_insert_eq, app_nil_r.
        split; [reflexivity|]. split; [intros Hsmall; lia|].
        intros _. split; [reflexivity|].
        eexists. split; [reflexivity|]. simpl. rewrite app_nil_r.
        split; [reflexivity|]. split.
        -- intros i b Hb. discriminate.
        -- intros Hm. exact Hm.
    + apply Z.ltb_ge in Egrow. injection H as <-. exists [].
      rewrite app_nil_r. split; [reflexivity|].
      split; [auto|]. intros Hbig. lia.
Qed.

Lemma page_numbers_follow_position_witness :
  exists st' : Plugin,
    extendContainer host_grown plugin_after_update 1%positive
      overlay_after_update 5 = Some st' /\
    shown st' 1%positive
    = ([916%Z; 1833%Z; 2749%Z], [2%nat; 3%nat; 4%nat]) /\
    exists newBreaks : list Q,
      default [] (calculatedBreaks st' !! 1%positive)
      = default [] (calculatedBreaks plugin_after_update !! 1%positive)
        ++ newBreaks.
Proof.
  destruct (extendContainer host_grown plugin_after_update 1%positive
              overlay_after_update 5) as [st'|] eqn:E;
    [|vm_compute in E; discriminate].
  exists st'. split; [reflexivity|]. split.
  - assert (E' := E). vm_compute in E'. injection E' as <-.
    vm_compute. reflexivity.
  - destruct (page_numbers_follow_position host_grown plugin_after_update st'
                1%positive overlay_after_update 5 E)
      as (_ & _ & newBreaks & Hc & _).
    exists newBreaks. exact Hc.
Defined.

(** ** The cache *)

(** A request for a view whose breaks are cached changes nothing, and
    needs no fuel: the generator is not run. *)
Lemma updatePageBreaks_cached (host : Host) (st : Plugin)
    (element : ContentEl) (targetEl : Elem) (fuel : nat) :
  findTarget element = Some targetEl ->
  is_Some (calculatedBreaks st !! targetEl) ->
  updatePageBreaks host st element fuel = Some st.
Proof.
  intros Ht [breaks Hc]. unfold updatePageBreaks. rewrite Ht, Hc. reflexivity.
Qed.



Lemma updateAllViews_returns (host : Host) (st : Plugin)
    (element : ContentEl) (targetEl : Elem) :
  leaves host = [Some element] ->
  findTarget element = Some targetEl ->
  0 < getPageHeight (settings st) ->
  exists st' : Plugin,
    Returns (updateAllViews host st) st' /\ settings st' = settings st.
Proof.
  intros Hl Ht Hph.
  destruct (generator_returns (inject_Z (scrollHeight host targetEl))
              (getPageHeight (settings st)) (calibrationOffset (settings st))
              (minBreakSpacing (settings st)) Hph) as (l & fuel & Hgen).
  eexists. split.
  - exists fuel. unfold updateAllViews. rewrite Hl.
    cbn [updateLeaves]. unfold updatePageBreaks. rewrite Ht.
    cbn [calculatedBreaks clearCalculatedBreaks settings].
    rewrite lookup_empty. unfold calculateSimpleBreaks. rewrite Hgen.
    reflexivity.
  - reflexivity.
Qed.




(** * Further properties of the code *)

(** ** Geometry *)

(** X1.  For a font family of the table, [getPageHeight] is positive
    exactly when the top and bottom margins together are smaller than the
    selected page dimension. *)
Theorem getPageHeight_positive_iff (s : Settings) :
  knownFont s ->
  (0 < getPageHeight s <->
   marginTop s + marginBottom s < pageDimension s).
Proof.
  intros _. split.
  - intros Hpos. apply Qnot_le_lt. intros Hle.
    pose proof (getPageHeight_nonpositive s Hle). lra.
  - intros Hm. rewrite getPageHeight_factor.
    pose proof (fontMetric_pos (fontFamily s)) as Hfm.
    assert (Hppm : 0 < pixelsPerMm) by (vm_compute; reflexivity).
    apply Qmult_lt_0_compat; [lra|].
    apply Qmult_lt_0_compat; [|lra].
    apply Qmult_lt_0_compat; assumption.
Qed.

Lemma getPageHeight_positive_iff_witness :
  0 < getPageHeight DEFAULT_SETTINGS <->
  marginTop DEFAULT_SETTINGS + marginBottom DEFAULT_SETTINGS
    < pageDimension DEFAULT_SETTINGS.
Proof.
  apply (getPageHeight_positive_iff DEFAULT_SETTINGS).
  exists 1.0. reflexivity.
Defined.

Lemma pageDimension_landscape_lt (p : PageSize) :
  width (PAGE_DIMENSIONS p) < height (PAGE_DIMENSIONS p).
Proof. destruct p; vm_compute; reflexivity. Qed.

Lemma getPageHeight_lt (s1 s2 : Settings) :
  fontFamily s1 = fontFamily s2 ->
  pageDimension s1 - (marginTop s1 + marginBottom s1)
    < pageDimension s2 - (marginTop s2 + marginBottom s2) ->
  getPageHeight s1 < getPageHeight s2.
Proof.
  intros Hf Hlt. rewrite !getPageHeight_factor, <- Hf.
  pose proof (fontMetric_pos (fontFamily s1)) as Hfm.
  assert (Hppm : 0 < pixelsPerMm) by (vm_compute; reflexivity).
  apply Qmult_lt_compat_r; [|exact Hlt].
  apply Qmult_lt_0_compat; [|lra].
  apply Qmult_lt_0_compat; assumption.
Qed.

(** X2.  The page height grows with the printable length: of two
    configurations with the same font family (one of the table), the one
    whose page dimension minus margins is larger has the larger page
    height; so larger margins give a smaller page height. *)
Theorem getPageHeight_monotone (s1 s2 : Settings) :
  knownFont s1 -> fontFamily s1 = fontFamily s2 ->
  pageDimension s1 - (marginTop s1 + marginBottom s1)
    < pageDimension s2 - (marginTop s2 + marginBottom s2) ->
  getPageHeight s1 < getPageHeight s2.
Proof.
  intros _ Hf Hlt. apply getPageHeight_lt; assumption.
Qed.

Lemma getPageHeight_monotone_witness :
  getPageHeight settings_wide_margins < getPageHeight DEFAULT_SETTINGS.
Proof.
  apply (getPageHeight_monotone settings_wide_margins DEFAULT_SETTINGS).
  - exists 1.0. reflexivity.
  - reflexivity.
  - vm_compute. reflexivity.
Defined.

(** X3.  Landscape is never taller than portrait: two configurations that
    differ in orientation only (same page size, margins and a font family
    of the table) give a smaller page height in landscape. *)
Theorem getPageHeight_landscape_lt_portrait (s1 s2 : Settings) :
  knownFont s1 -> fontFamily s1 = fontFamily s2 ->
  pageSize s1 = pageSize s2 ->
  marginTop s1 = marginTop s2 -> marginBottom s1 = marginBottom s2 ->
  orientation s1 = landscape -> orientation s2 = portrait ->
  getPageHeight s1 < getPageHeight s2.
Proof.
  intros _ Hf Hp Ht Hb Ho1 Ho2.
  apply getPageHeight_lt; [exact Hf|].
  unfold pageDimension. rewrite Ho1, Ho2, Hp, Ht, Hb.
  pose proof (pageDimension_landscape_lt (pageSize s2)). lra.
Qed.

Lemma getPageHeight_landscape_lt_portrait_witness :
  getPageHeight settings_landscape < getPageHeight DEFAULT_SETTINGS.
Proof.
  apply (getPageHeight_landscape_lt_portrait settings_landscape
           DEFAULT_SETTINGS); try reflexivity.
  exists 1.0. reflexivity.
Defined.

(** ** The generator, further *)

Section GeneratorMore.

Variables pageHeight totalHeight calibrationOffset minBreakSpacing : Q.

Abbreviation loop :=
  (calculateSimpleBreaks_loop pageHeight totalHeight calibrationOffset
     minBreakSpacing).
Abbreviation cand := (candidate pageHeight calibrationOffset).
Abbreviation traced :=
  (trace pageHeight totalHeight calibrationOffset minBreakSpacing).

(** The page indices of a trace are distinct, so the index of its last
    element is at least [cp + length - 1]. *)
Lemma trace_length (l : list Q) :
  0 <= pageHeight ->
  forall (cp : Z) (lastY : Q),
    traced l cp lastY -> l <> [] ->
    inject_Z (cp + Z.of_nat (length l) - 1) * pageHeight < totalHeight.
Proof.
  intros Hph. induction l as [|b t IH]; intros cp lastY H Hne; [congruence|].
  simpl in H. destruct H as (k & Hk & Hlt & _ & _ & Ht).
  destruct t as [|c t'].
  - simpl length.
    assert (Hle : (cp + Z.of_nat 1 - 1 <= k)%Z) by lia.
    pose proof (page_le pageHeight _ _ Hph Hle). lra.
  - specialize (IH _ _ Ht ltac:(discriminate)).
    assert (Hle : (cp + Z.of_nat (length (b :: c :: t')) - 1
                   <= k + 1 + Z.of_nat (length (c :: t')) - 1)%Z).
    { simpl length. lia. }
    pose proof (page_le pageHeight _ _ Hph Hle). lra.
Qed.

(** When every candidate is far enough from the one before it, none is
    left out. *)
Lemma loop_all_accepted :
  0 <= pageHeight -> minBreakSpacing <= pageHeight ->
  forall (fuel : nat) (cp : Z) (lastY : Q) (l : list Q),
    loop fuel cp lastY [] = Some l ->
    minBreakSpacing <= cand cp - lastY ->
    forall k : Z, (cp <= k)%Z -> inject_Z k * pageHeight < totalHeight ->
      In (cand k) l.
Proof.
  intros Hph Hms. induction fuel as [|fuel IH]; intros cp lastY l H Hfirst k Hk Hlt;
    [discriminate|].
  rewrite loop_step in H. revert H. case_test.
  - rewrite (proj2 (Qle_bool_iff _ _) Hfirst).
    destruct (loop fuel _ _ []) as [t|] eqn:E; [|discriminate].
    intros [= <-].
    destruct (Z.eq_dec k cp) as [->|Hne]; [left; reflexivity|].
    right. apply (IH _ _ _ E); [|lia|exact Hlt].
    unfold candidate. rewrite inject_Z_succ. lra.
  - intros _. pose proof (page_le pageHeight cp k Hph Hk). lra.
Qed.

End GeneratorMore.

(** X4.  Growth keeps what was computed: for a positive page height and
    [oldHeight <= newHeight], the sequence generated on [oldHeight] is a
    prefix of the sequence generated on [newHeight]. *)
Theorem generated_prefix_under_growth
    (pageHeight calibrationOffset minBreakSpacing oldHeight newHeight : Q) :
  0 < pageHeight -> oldHeight <= newHeight ->
  forall lo ln : list Q,
    Returns (calculateSimpleBreaks_on oldHeight pageHeight calibrationOffset
               minBreakSpacing) lo ->
    Returns (calculateSimpleBreaks_on newHeight pageHeight calibrationOffset
               minBreakSpacing) ln ->
    exists added : list Q, ln = lo ++ added.
Proof.
  intros Hph Hle lo ln [f1 Hlo] Hln.
  destruct (gen_split pageHeight calibrationOffset minBreakSpacing oldHeight
              newHeight Hle _ _ _ _ Hlo)
    as (K & j & _ & _ & _ & _ & _ & _ & Hres).
  destruct (loop_terminates pageHeight newHeight calibrationOffset
              minBreakSpacing Hph (S (pagesLeft pageHeight newHeight K))
              K (List.last lo 0)) as [l2 Hl2]; [lia|].
  exists l2. eapply generator_deterministic; [exact Hln|].
  eexists. apply Hres, Hl2.
Qed.

Lemma generated_prefix_under_growth_witness :
  0 < 900 /\ 1800 <= 3000 /\
  forall lo ln : list Q,
    Returns (calculateSimpleBreaks_on 1800 900 0 50) lo ->
    Returns (calculateSimpleBreaks_on 3000 900 0 50) ln ->
    exists added : list Q, ln = lo ++ added.
Proof.
  split; [lra|]. split; [lra|].
  apply (generated_prefix_under_growth 900 0 50 1800 3000); lra.
Defined.

(** X5.  At most one break per page: for a positive page height, a
    non-empty generated sequence of [n] breaks has [n * pageHeight] below
    the total height. *)
Theorem break_count_bounded
    (totalHeight pageHeight calibrationOffset minBreakSpacing : Q)
    (l : list Q) :
  0 < pageHeight ->
  Returns (calculateSimpleBreaks_on totalHeight pageHeight calibrationOffset
             minBreakSpacing) l ->
  l <> [] ->
  inject_Z (Z.of_nat (length l)) * pageHeight < totalHeight.
Proof.
  intros Hph Hl Hne. apply generator_trace in Hl.
  pose proof (trace_length _ _ _ _ l (Qlt_le_weak _ _ Hph) _ _ Hl Hne) as H.
  replace (1 + Z.of_nat (length l) - 1)%Z with (Z.of_nat (length l)) in H by lia.
  exact H.
Qed.

Lemma break_count_bounded_witness :
  inject_Z (Z.of_nat (length [candidate 900 0 1; candidate 900 0 2])) * 900
    < 2000.
Proof.
  apply (break_count_bounded 2000 900 0 50).
  - lra.
  - exists 5%nat. reflexivity.
  - discriminate.
Defined.

(** X6.  No suppression with a small minimum spacing: for a positive page
    height, if [minSpacing] is at least one pixel below [pageHeight] and
    below [pageHeight + calibrationOffset] (the first candidate is far
    enough from the top), every page index [k >= 1] with
    [k * pageHeight < totalHeight] has its candidate in the generated
    sequence.  (The pixel of margin keeps the spacing test clear of its
    boundary, where the rounding of the program's floating point numbers
    decides.) *)
Theorem every_page_gets_a_break_with_margin
    (totalHeight pageHeight calibrationOffset minBreakSpacing : Q) :
  0 < pageHeight -> minBreakSpacing + 1 <= pageHeight ->
  minBreakSpacing + 1 <= pageHeight + calibrationOffset ->
  (exists l : list Q,
     Returns (calculateSimpleBreaks_on totalHeight pageHeight
                calibrationOffset minBreakSpacing) l) /\
  forall l : list Q,
    Returns (calculateSimpleBreaks_on totalHeight pageHeight
               calibrationOffset minBreakSpacing) l ->
    forall k : Z, (1 <= k)%Z -> inject_Z k * pageHeight < totalHeight ->
      In (inject_Z k * pageHeight + calibrationOffset) l.
Proof.
  intros Hph Hms Hfirst. split; [apply generator_returns, Hph|].
  intros l [fuel Hl] k Hk Hlt.
  assert (Hms' : minBreakSpacing <= pageHeight) by lra.
  apply (loop_all_accepted pageHeight totalHeight calibrationOffset
           minBreakSpacing (Qlt_le_weak _ _ Hph) Hms' fuel 1 0 l Hl);
    [|exact Hk|exact Hlt].
  unfold candidate. change (inject_Z 1) with 1. lra.
Qed.

Lemma every_page_gets_a_break_with_margin_witness :
  0 < 900 /\ 50 + 1 <= 900 /\ 50 + 1 <= 900 + 0 /\
  forall l : list Q,
    Returns (calculateSimpleBreaks_on 2000 900 0 50) l ->
    forall k : Z, (1 <= k)%Z -> inject_Z k * 900 < 2000 ->
      In (inject_Z k * 900 + 0) l.
Proof.
  split; [lra|]. split; [lra|]. split; [lra|].
  apply (every_page_gets_a_break_with_margin 2000 900 0 50); lra.
Defined.

(** ** The extender, further *)

Section ExtenderMore.

Variables pageHeight calibrationOffset minBreakSpacing : Q.
Variables oldHeight newHeight : Q.

Abbreviation ext :=
  (createAdditionalBreaks_loop pageHeight oldHeight newHeight
     calibrationOffset minBreakSpacing).
Abbreviation cand := (candidate pageHeight calibrationOffset).
Abbreviation traced :=
  (trace pageHeight newHeight calibrationOffset minBreakSpacing).

Lemma ext_terminates :
  0 < pageHeight ->
  forall (fuel : nat) (cp : Z) (lastY : Q),
    (pagesLeft pageHeight newHeight cp < fuel)%nat ->
    exists l, ext fuel cp lastY [] = Some l.
Proof.
  intros Hph. induction fuel as [|fuel IH]; intros cp lastY Hfuel; [lia|].
  rewrite ext_step.
  case_test; [|eexists; reflexivity].
  assert (Hlt : (cp < Qceiling (newHeight / pageHeight))%Z).
  { apply (page_lt_inv pageHeight); [exact Hph|].
    pose proof (Qle_ceiling (newHeight / pageHeight)) as Hc.
    apply (Qmult_le_compat_r _ _ pageHeight) in Hc; [|lra].
    assert (E : newHeight / pageHeight * pageHeight == newHeight)
      by (field; lra).
    lra. }
  assert (Hnext : (pagesLeft pageHeight newHeight (cp + 1) < fuel)%nat)
    by (unfold pagesLeft in *; lia).
  destruct (_ && _).
  - destruct (IH (cp + 1)%Z (cand cp) Hnext) as [l Hl].
    rewrite Hl. eexists; reflexivity.
  - apply IH, Hnext.
Qed.

(** A run of the extender loop leaves a trace of the generator on
    [newHeight], all of whose elements lie beyond [oldHeight]. *)
Lemma ext_trace (fuel : nat) : forall (cp : Z) (lastY : Q) (l : list Q),
  ext fuel cp lastY [] = Some l ->
  traced l cp lastY /\ Forall (fun b => oldHeight < b) l.
Proof.
  induction fuel as [|fuel IH]; intros cp lastY l H; [discriminate|].
  rewrite ext_step in H. revert H.
  case_test; [|intros [= <-]; split; [exact I|constructor]].
  destruct (Qle_bool minBreakSpacing (cand cp - lastY)) eqn:Esp;
    [destruct (Qlt_bool oldHeight (cand cp)) eqn:Eold|]; simpl; intros H.
  - destruct (ext fuel _ _ []) as [t|] eqn:E; [|discriminate].
    injection H as <-. apply IH in E. destruct E as [Ht Hall].
    apply Qle_bool_iff in Esp. apply Qlt_bool_iff in Eold.
    split; [|constructor; assumption].
    simpl. exists cp. repeat split; [lia|assumption|assumption|exact Ht].
  - apply IH in H. destruct H as [Ht Hall]. split; [|exact Hall].
    destruct l as [|b t]; [exact I|].
    simpl in *. destruct Ht as (k & Hk & Hrest). exists k. split; [lia|exact Hrest].
  - apply IH in H. destruct H as [Ht Hall]. split; [|exact Hall].
    destruct l as [|b t]; [exact I|].
    simpl in *. destruct Ht as (k & Hk & Hrest). exists k. split; [lia|exact Hrest].
Qed.

(** With a negative page height the loop test, once true, stays true. *)
Lemma ext_diverges :
  pageHeight < 0 ->
  forall (fuel : nat) (cp : Z) (lastY : Q) (acc : list Q),
    inject_Z cp * pageHeight < newHeight -> ext fuel cp lastY acc = None.
Proof.
  intros Hph. induction fuel as [|fuel IH]; intros cp lastY acc Hlt; simpl;
    [reflexivity|].
  rewrite (proj2 (Qlt_bool_iff _ _) Hlt).
  assert (Hnext : inject_Z (cp + 1) * pageHeight < newHeight)
    by (rewrite inject_Z_succ; lra).
  destruct (_ && _); apply IH, Hnext.
Qed.

End ExtenderMore.

Lemma extender_returns
    (calibrationOffset minBreakSpacing lastBreak oldHeight newHeight
     pageHeight : Q) :
  0 < pageHeight ->
  exists l : list Q,
    Returns (createAdditionalBreaks_on calibrationOffset minBreakSpacing
               lastBreak oldHeight newHeight pageHeight) l.
Proof.
  intros Hph. unfold Returns, createAdditionalBreaks_on.
  destruct (Qeq_bool pageHeight 0); [exists [], 0%nat; reflexivity|].
  set (p0 := (Qfloor (lastBreak / pageHeight) + 1)%Z).
  destruct (ext_terminates pageHeight calibrationOffset minBreakSpacing
              oldHeight newHeight Hph
              (S (pagesLeft pageHeight newHeight p0)) p0 lastBreak)
    as [l Hl]; [lia|].
  exists l, (S (pagesLeft pageHeight newHeight p0)). exact Hl.
Qed.

Lemma extender_trace
    (calibrationOffset minBreakSpacing lastBreak oldHeight newHeight
     pageHeight : Q) (l : list Q) :
  0 < pageHeight ->
  Returns (createAdditionalBreaks_on calibrationOffset minBreakSpacing
             lastBreak oldHeight newHeight pageHeight) l ->
  trace pageHeight newHeight calibrationOffset minBreakSpacing l
    (Qfloor (lastBreak / pageHeight) + 1) lastBreak /\
  Forall (fun b => oldHeight < b) l.
Proof.
  intros Hph [fuel H]. unfold createAdditionalBreaks_on in H.
  destruct (Qeq_bool pageHeight 0) eqn:E0;
    [apply Qeq_bool_iff in E0; lra|].
  eapply ext_trace, H.
Qed.

(** X7.  What the extender returns.  For a positive page height
    [createAdditionalBreaks] returns, and every break [b] it returns lies
    beyond [oldHeight], has [b - calibrationOffset < newHeight], the
    breaks are strictly increasing, consecutive ones are at least
    [minSpacing] apart and the first one is at least [minSpacing] beyond
    [lastBreak]. *)
Theorem additional_breaks_bounds
    (calibrationOffset minBreakSpacing lastBreak oldHeight newHeight
     pageHeight : Q) :
  0 < pageHeight ->
  (exists l : list Q,
     Returns (createAdditionalBreaks_on calibrationOffset minBreakSpacing
                lastBreak oldHeight newHeight pageHeight) l) /\
  forall l : list Q,
    Returns (createAdditionalBreaks_on calibrationOffset minBreakSpacing
               lastBreak oldHeight newHeight pageHeight) l ->
    Forall (fun b => oldHeight < b /\ b - calibrationOffset < newHeight) l /\
    StronglySorted Qlt l /\
    consecutive (fun a b => minBreakSpacing <= b - a) l /\
    (forall b : Q, head l = Some b -> minBreakSpacing <= b - lastBreak).
Proof.
  intros Hph. split; [apply extender_returns, Hph|].
  intros l Hl. destruct (extender_trace _ _ _ _ _ _ _ Hph Hl) as [Ht Hold].
  split; [|split; [|split]].
  - pose proof (trace_below _ _ _ _ _ _ _ Ht) as Hb.
    rewrite Forall_forall in *. intros x Hx. split; [apply Hold|apply Hb]; exact Hx.
  - eapply trace_sorted; eassumption.
  - eapply trace_spaced; eassumption.
  - intros b Hb. destruct l as [|b' t]; [discriminate|].
    injection Hb as ->. simpl in Ht. destruct Ht as (k & _ & _ & _ & Hsp & _).
    exact Hsp.
Qed.

Lemma additional_breaks_bounds_witness :
  0 < 900 /\
  forall l : list Q,
    Returns (createAdditionalBreaks_on 0 50 1800 2000 3000 900) l ->
    Forall (fun b => 2000 < b /\ b - 0 < 3000) l /\
    StronglySorted Qlt l /\
    consecutive (fun a b => 50 <= b - a) l /\
    (forall b : Q, head l = Some b -> 50 <= b - 1800).
Proof.
  split; [lra|].
  apply (additional_breaks_bounds 0 50 1800 2000 3000 900). lra.
Defined.

(** X9.  A page height that is zero or negative: [createAdditionalBreaks]
    never returns a break, and with a negative page height it does not
    return at all once its first loop test holds. *)
Theorem additional_breaks_nonpositive_page_height
    (calibrationOffset minBreakSpacing lastBreak oldHeight newHeight
     pageHeight : Q) :
  pageHeight <= 0 ->
  (forall l : list Q,
     Returns (createAdditionalBreaks_on calibrationOffset minBreakSpacing
                lastBreak oldHeight newHeight pageHeight) l -> l = []) /\
  (pageHeight < 0 ->
   inject_Z (Qfloor (lastBreak / pageHeight) + 1) * pageHeight < newHeight ->
   Diverges (createAdditionalBreaks_on calibrationOffset minBreakSpacing
               lastBreak oldHeight newHeight pageHeight)).
Proof.
  intros Hph.
  assert (Hdiv : pageHeight < 0 ->
            inject_Z (Qfloor (lastBreak / pageHeight) + 1) * pageHeight
              < newHeight ->
            Diverges (createAdditionalBreaks_on calibrationOffset
                        minBreakSpacing lastBreak oldHeight newHeight
                        pageHeight)).
  { intros Hneg Hlt fuel. unfold createAdditionalBreaks_on.
    destruct (Qeq_bool pageHeight 0) eqn:E0;
      [apply Qeq_bool_iff in E0; lra|].
    apply ext_diverges; assumption. }
  split; [|exact Hdiv].
  intros l [fuel H].
  destruct (Qeq_bool pageHeight 0) eqn:E0.
  - unfold createAdditionalBreaks_on in H. rewrite E0 in H. congruence.
  - assert (Hneg : pageHeight < 0).
    { apply Qeq_bool_neq in E0. apply Qnot_le_lt. intros H0. apply E0. lra. }
    destruct (Qlt_le_dec
                (inject_Z (Qfloor (lastBreak / pageHeight) + 1) * pageHeight)
                newHeight) as [Hlt|Hge].
    + rewrite (Hdiv Hneg Hlt fuel) in H. discriminate.
    + unfold createAdditionalBreaks_on in H. rewrite E0 in H.
      destruct fuel as [|fuel]; [discriminate|].
      rewrite ext_step in H.
      rewrite (proj2 (Qlt_bool_false_iff _ _) Hge) in H. congruence.
Qed.

Lemma additional_breaks_nonpositive_page_height_witness :
  Diverges (createAdditionalBreaks_on 0 50 0 1000 2000 (-10)).
Proof.
  apply (additional_breaks_nonpositive_page_height 0 50 0 1000 2000 (-10));
    vm_compute; (reflexivity || discriminate).
Defined.

(** X10.  Growth inside a page adds nothing: for a positive page height, if
    every page index [k] with [k * pageHeight < newHeight] has its
    candidate at or below [oldHeight], the extender returns the empty
    sequence. *)
Theorem no_additional_break_within_a_page
    (calibrationOffset minBreakSpacing lastBreak oldHeight newHeight
     pageHeight : Q) :
  0 < pageHeight ->
  (forall k : Z, inject_Z k * pageHeight < newHeight ->
     inject_Z k * pageHeight + calibrationOffset <= oldHeight) ->
  Returns (createAdditionalBreaks_on calibrationOffset minBreakSpacing
             lastBreak oldHeight newHeight pageHeight) [].
Proof.
  intros Hph Hin.
  destruct (extender_returns calibrationOffset minBreakSpacing lastBreak
              oldHeight newHeight pageHeight Hph) as [l Hl].
  destruct (extender_trace _ _ _ _ _ _ _ Hph Hl) as [Ht Hold].
  destruct l as [|b t]; [exact Hl|exfalso].
  simpl in Ht. destruct Ht as (k & _ & Hlt & -> & _).
  apply Forall_inv in Hold. specialize (Hin k Hlt).
  unfold candidate in Hold. lra.
Qed.

Lemma no_additional_break_within_a_page_witness :
  Returns (createAdditionalBreaks_on 0 50 1800 2000 2500 900) [].
Proof.
  apply (no_additional_break_within_a_page 0 50 1800 2000 2500 900);
    [lra|].
  intros k. unfold Qle, Qlt. simpl. lia.
Defined.

(** ** The sequence after an extension *)

Lemma In_last (l : list Q) (d : Q) : l <> [] -> In (List.last l d) l.
Proof.
  revert d. induction l as [|b t IH]; intros d Hne; [congruence|].
  rewrite last_cons. destruct t as [|c t']; [left; reflexivity|].
  right. apply IH. discriminate.
Qed.

Section TraceAppend.

Variables pageHeight calibrationOffset minBreakSpacing : Q.

Abbreviation cand := (candidate pageHeight calibrationOffset).
Abbreviation traced th :=
  (trace pageHeight th calibrationOffset minBreakSpacing).

Lemma trace_weaken (th1 th2 : Q) (l : list Q) :
  th1 <= th2 ->
  forall (cp cp' : Z) (lastY : Q),
    (cp' <= cp)%Z -> traced th1 l cp lastY -> traced th2 l cp' lastY.
Proof.
  intros Hth. induction l as [|b t IH]; intros cp cp' lastY Hcp H; [exact I|].
  simpl in *. destruct H as (k & Hk & Hlt & Hb & Hsp & Ht).
  exists k. repeat split; [lia|lra|exact Hb|exact Hsp|].
  eapply IH; [|exact Ht]. lia.
Qed.

Lemma trace_raise (th : Q) (l : list Q) (cp j : Z) (lastY : Q) :
  0 < pageHeight ->
  traced th l cp lastY ->
  (forall b : Q, head l = Some b -> cand j < b) ->
  traced th l (j + 1) lastY.
Proof.
  intros Hph H Hhd. destruct l as [|b t]; [exact I|].
  simpl in *. destruct H as (k & Hk & Hlt & Hb & Hsp & Ht).
  exists k. repeat split; try assumption.
  specialize (Hhd b eq_refl). rewrite Hb in Hhd. unfold candidate in Hhd.
  assert (Hjk : inject_Z j * pageHeight < inject_Z k * pageHeight) by lra.
  apply page_lt_inv in Hjk; [lia|exact Hph].
Qed.

Lemma trace_app (th : Q) (l1 : list Q) :
  0 < pageHeight ->
  forall (l2 : list Q) (cp cp2 : Z) (lastY : Q),
    l1 <> [] ->
    traced th l1 cp lastY ->
    traced th l2 cp2 (List.last l1 lastY) ->
    Forall (fun x => List.last l1 lastY < x) l2 ->
    traced th (l1 ++ l2) cp lastY.
Proof.
  intros Hph. induction l1 as [|b t IH]; intros l2 cp cp2 lastY Hne H1 H2 Hall;
    [congruence|].
  rewrite last_cons in H2, Hall.
  simpl in H1. destruct H1 as (k & Hk & Hlt & Hb & Hsp & Ht).
  simpl. exists k. repeat split; try assumption.
  destruct t as [|c t'].
  - simpl in *. apply (trace_raise th l2 cp2 k b Hph H2).
    intros x Hx. rewrite <- Hb. destruct l2 as [|y l2']; [discriminate|].
    injection Hx as ->. apply Forall_inv in Hall. exact Hall.
  - apply (IH l2 (k + 1)%Z cp2 b); [discriminate|exact Ht|exact H2|exact Hall].
Qed.

End TraceAppend.

(** X8.  The cached sequence after an extension keeps the invariants of a
    generated one.  For a positive page height and [oldHeight <=
    newHeight], the sequence generated on [oldHeight] followed by the
    breaks the extender adds to it is strictly increasing, its
    consecutive offsets are at least [minSpacing] apart (also across the
    seam), every offset is at least [minSpacing], and every offset [b] has
    [b - calibrationOffset < newHeight]. *)
Theorem extended_sequence_invariants
    (pageHeight calibrationOffset minBreakSpacing oldHeight newHeight : Q) :
  0 < pageHeight -> oldHeight <= newHeight ->
  (exists existing additional : list Q,
     Returns (calculateSimpleBreaks_on oldHeight pageHeight calibrationOffset
                minBreakSpacing) existing /\
     Returns (extendBreaks existing oldHeight newHeight pageHeight
                calibrationOffset minBreakSpacing) additional) /\
  forall existing additional : list Q,
    Returns (calculateSimpleBreaks_on oldHeight pageHeight calibrationOffset
               minBreakSpacing) existing ->
    Returns (extendBreaks existing oldHeight newHeight pageHeight
               calibrationOffset minBreakSpacing) additional ->
    StronglySorted Qlt (existing ++ additional) /\
    consecutive (fun a b => minBreakSpacing <= b - a)
      (existing ++ additional) /\
    Forall (fun b => minBreakSpacing <= b /\
                     b - calibrationOffset < newHeight)
      (existing ++ additional).
Proof.
  intros Hph Hle. split.
  { destruct (generator_returns oldHeight pageHeight calibrationOffset
                minBreakSpacing Hph) as [lo Hlo].
    destruct (extender_returns calibrationOffset minBreakSpacing
                (lastBreakPosition lo) oldHeight newHeight pageHeight Hph)
      as [le Hle'].
    exists lo, le. split; assumption. }
  intros lo le Hlo Hext.
  apply generator_trace in Hlo.
  destruct (extender_trace _ _ _ _ _ _ _ Hph Hext) as [Hte Hold].
  unfold lastBreakPosition in Hte.
  set (lastY := List.last lo 0) in *.
  assert (Hall : trace pageHeight newHeight calibrationOffset minBreakSpacing
                   (lo ++ le) 1 0).
  { assert (Hcase : lo = [] \/ lo <> [])
      by (destruct lo; [left; reflexivity|right; discriminate]).
    destruct Hcase as [Elo|Hne].
    - assert (H0 : inject_Z 0 * pageHeight <= lastY)
        by (unfold lastY; rewrite Elo; simpl; change (inject_Z 0) with 0; lra).
      assert (E0 : lastY = 0) by (unfold lastY; rewrite Elo; reflexivity).
      rewrite Elo. simpl. rewrite <- E0.
      eapply trace_weaken; [apply Qle_refl| |exact Hte].
      pose proof (floor_div_lower pageHeight lastY 0 Hph H0). lia.
    - eapply trace_app; [exact Hph|exact Hne| | |].
      + eapply trace_weaken; [exact Hle| |exact Hlo]. lia.
      + exact Hte.
      + pose proof (In_last lo 0 Hne) as Hin. fold lastY in Hin.
        apply list_elem_of_In in Hin.
        pose proof (trace_candidates _ _ _ _ _ _ _ Hlo) as Hc.
        rewrite Forall_forall in Hc.
        destruct (Hc _ Hin) as (j & Hj & Hjold & Ej).
        pose proof (trace_candidates _ _ _ _ _ _ _ Hte) as Hce.
        rewrite Forall_forall in *. intros x Hx.
        specialize (Hold x Hx). destruct (Hce x Hx) as (k & Hk & _ & Ek).
        fold lastY.
        destruct (Qlt_le_dec calibrationOffset 0) as [Hneg|Hpos].
        * rewrite Ej. unfold candidate. lra.
        * assert (Hjl : inject_Z j * pageHeight <= lastY)
            by (rewrite Ej; unfold candidate; lra).
          pose proof (floor_div_lower pageHeight lastY j Hph Hjl) as Hfl.
          assert (Hjk : (j < k)%Z) by lia.
          pose proof (page_lt pageHeight j k Hph Hjk).
          rewrite Ej, Ek. unfold candidate. lra. }
  split; [eapply trace_sorted; eassumption|].
  split; [eapply trace_spaced; eassumption|].
  pose proof (trace_at_least_spacing _ _ _ _ _ _ Hph Hall) as H1.
  pose proof (trace_below _ _ _ _ _ _ _ Hall) as H2.
  rewrite Forall_forall in *. intros x Hx. split; [apply H1|apply H2]; exact Hx.
Qed.

Lemma extended_sequence_invariants_witness :
  0 < 900 /\ 1800 <= 3000 /\
  forall existing additional : list Q,
    Returns (calculateSimpleBreaks_on 1800 900 0 50) existing ->
    Returns (extendBreaks existing 1800 3000 900 0 50) additional ->
    StronglySorted Qlt (existing ++ additional) /\
    consecutive (fun a b => 50 <= b - a) (existing ++ additional) /\
    Forall (fun b => 50 <= b /\ b - 0 < 3000) (existing ++ additional).
Proof.
  split; [lra|]. split; [lra|].
  apply (extended_sequence_invariants 900 0 50 1800 3000); lra.
Defined.

(** ** The update cycle *)

(** The overlay [updatePageBreaks] builds for a computed sequence. *)
Lemma rendered_overlay (host : Host) (s : Settings) (t : Elem)
    (breaks : list Q) (c : BreakContainer) :
  c = (if (0 <? length breaks)%nat
       then renderPageBreaks s (createBreakContainer host t) breaks
       else createBreakContainer host t) ->
  children c = markers s breaks /\ style_height c = scrollHeight host t.
Proof.
  intros ->. destruct breaks; split; reflexivity.
Qed.

(** The two ways [updatePageBreaks] returns: nothing to do (no target, or
    the target is cached), or one run of the generator whose result is
    stored and rendered. *)
Lemma updatePageBreaks_inv (host : Host) (st st' : Plugin)
    (element : ContentEl) (fuel : nat) :
  updatePageBreaks host st element fuel = Some st' ->
  (st' = st /\
   (findTarget element = None \/
    exists t : Elem,
      findTarget element = Some t /\ is_Some (calculatedBreaks st !! t))) \/
  exists (t : Elem) (breaks : list Q),
    findTarget element = Some t /\
    calculatedBreaks st !! t = None /\
    calculateSimpleBreaks (settings st) (scrollHeight host t) fuel
      = Some breaks /\
    settings st' = settings st /\
    calculatedBreaks st' = <[t := breaks]> (calculatedBreaks st) /\
    breakContainers st' =
      <[t := if (0 <? length breaks)%nat
             then renderPageBreaks (settings st)
                    (createBreakContainer host t) breaks
             else createBreakContainer host t]>
        (delete t (breakContainers st)) /\
    observers st' = {[t]} ∪ observers st /\
    computations st' = S (computations st).
Proof.
  unfold updatePageBreaks. intros H.
  destruct (findTarget element) as [t|]; [|injection H as <-; left; auto].
  destruct (calculatedBreaks st !! t) as [bs|] eqn:E.
  - injection H as <-. left. split; [reflexivity|]. right. exists t. eauto.
  - destruct (calculateSimpleBreaks _ _ _) as [breaks|] eqn:Eb; [|discriminate].
    injection H as <-. right. exists t, breaks. simpl. repeat split; auto.
Qed.

Lemma overlay_lookup_ne (m : gmap Elem BreakContainer) (t t' : Elem)
    (c : BreakContainer) :
  t <> t' -> <[t := c]> (delete t m) !! t' = m !! t'.
Proof.
  intros Hne. rewrite lookup_insert_ne, lookup_delete_ne by exact Hne.
  reflexivity.
Qed.

Lemma updatePageBreaks_sound (host : Host) (st st' : Plugin)
    (element : ContentEl) (fuel : nat) :
  updatePageBreaks host st element fuel = Some st' ->
  cache_sound host st -> cache_sound host st'.
Proof.
  intros H Hs. apply updatePageBreaks_inv in H.
  destruct H as [[-> _]|(t & breaks & Ht & Hc & Hb & Hset & Hcache & Hcont & _)];
    [exact Hs|].
  intros t' bs Hbs. rewrite Hset, Hcache in *. rewrite Hcont.
  destruct (decide (t = t')) as [<-|Hne].
  - rewrite lookup_insert_eq in Hbs. injection Hbs as <-.
    split; [exists fuel; exact Hb|].
    eexists. rewrite lookup_insert_eq. split; [reflexivity|].
    eapply rendered_overlay. reflexivity.
  - rewrite lookup_insert_ne in Hbs by exact Hne.
    rewrite overlay_lookup_ne by exact Hne. apply Hs, Hbs.
Qed.

Lemma updateLeaves_post (host : Host) (ls : list (option ContentEl)) :
  forall (st st' : Plugin) (fuel : nat),
    updateLeaves host ls st fuel = Some st' ->
    settings st' = settings st /\
    (cache_sound host st -> cache_sound host st') /\
    (forall t : Elem,
       is_Some (calculatedBreaks st' !! t) <->
       is_Some (calculatedBreaks st !! t) \/
       exists element : ContentEl,
         In (Some element) ls /\ findTarget element = Some t) /\
    (computations st' + size (calculatedBreaks st)
     = computations st + size (calculatedBreaks st'))%nat.
Proof.
  induction ls as [|leaf rest IH]; intros st st' fuel H; simpl in H.
  - injection H as <-. split; [reflexivity|]. split; [auto|].
    split; [|lia]. intros t. split; [auto|].
    intros [Hc|(el & [] & _)]. exact Hc.
  - destruct leaf as [element|].
    + destruct (updatePageBreaks host st element fuel) as [st1|] eqn:E1;
        [|discriminate].
      destruct (IH _ _ _ H) as (Hset & Hsound & Hdom & Hcount).
      pose proof (updatePageBreaks_sound _ _ _ _ _ E1) as Hs1.
      apply updatePageBreaks_inv in E1.
      destruct E1 as [[-> Hwhy]|(t & breaks & Ht & Hc & Hb & Hset1 & Hcache1
                                 & _ & _ & Hcomp1)].
      * split; [exact Hset|]. split; [exact Hsound|]. split; [|exact Hcount].
        intros t'. rewrite Hdom. split.
        -- intros [Hc|(el & Hin & Hel)]; [left; exact Hc|].
           right. exists el. split; [right; exact Hin|exact Hel].
        -- intros [Hc|(el & [Hin|Hin] & Hel)]; [left; exact Hc| |].
           ++ injection Hin as ->. destruct Hwhy as [Hno|(t & Ht & Hc)];
                [congruence|].
              left. congruence.
           ++ right. exists el. split; assumption.
      * split; [congruence|]. split; [auto|]. split.
        -- intros t'. rewrite Hdom, Hcache1. split.
           ++ intros [Hc'|(el & Hin & Hel)].
              ** destruct (decide (t = t')) as [<-|Hne].
                 --- right. exists element. split; [left; reflexivity|exact Ht].
                 --- rewrite lookup_insert_ne in Hc' by exact Hne. left. exact Hc'.
              ** right. exists el. split; [right; exact Hin|exact Hel].
           ++ intros [Hc'|(el & [Hin|Hin] & Hel)].
              ** left. destruct (decide (t = t')) as [<-|Hne].
                 --- rewrite lookup_insert_eq. eauto.
                 --- rewrite lookup_insert_ne by exact Hne. exact Hc'.
              ** injection Hin as ->. left.
                 assert (t = t') as <- by congruence.
                 rewrite lookup_insert_eq. eauto.
              ** right. exists el. split; assumption.
        -- rewrite Hcache1, map_size_insert_None in Hcount by exact Hc. lia.
    + destruct (IH _ _ _ H) as (Hset & Hsound & Hdom & Hcount).
      split; [exact Hset|]. split; [exact Hsound|]. split; [|exact Hcount].
      intros t'. rewrite Hdom. split.
      * intros [Hc|(el & Hin & Hel)]; [left; exact Hc|].
        right. exists el. split; [right; exact Hin|exact Hel].
      * intros [Hc|(el & [Hin|Hin] & Hel)]; [left; exact Hc|discriminate|].
        right. exists el. split; assumption.
Qed.

(** X11.  What an update cycle leaves.  When [updateAllViews] returns, the
    settings are unchanged, the cached elements are exactly the targets of
    the views, and for each of them the cache holds what the generator
    returns for its scroll height, with an overlay of that height showing
    the markers of the sequence. *)
Theorem update_cycle_postcondition (host : Host) (st st' : Plugin) :
  Returns (updateAllViews host st) st' ->
  settings st' = settings st /\
  cache_sound host st' /\
  forall t : Elem, is_Some (calculatedBreaks st' !! t) <-> isTarget host t.
Proof.
  intros [fuel H]. unfold updateAllViews in H.
  destruct (updateLeaves_post _ _ _ _ _ H) as (Hset & Hsound & Hdom & _).
  split; [exact Hset|]. split.
  - apply Hsound. intros t bs Hbs. simpl in Hbs.
    rewrite lookup_empty in Hbs. discriminate.
  - intros t. rewrite Hdom. unfold isTarget. simpl. rewrite lookup_empty.
    split; [intros [[x Hx]|Hex]; [discriminate|exact Hex]|auto].
Qed.

Lemma update_cycle_postcondition_witness :
  exists st' : Plugin,
    Returns (updateAllViews host_one_editor (onload DEFAULT_SETTINGS)) st' /\
    settings st' = settings (onload DEFAULT_SETTINGS) /\
    cache_sound host_one_editor st' /\
    forall t : Elem,
      is_Some (calculatedBreaks st' !! t) <-> isTarget host_one_editor t.
Proof.
  destruct (updateAllViews_returns host_one_editor (onload DEFAULT_SETTINGS)
              editor_view 1%positive eq_refl eq_refl)
    as (st' & R & _); [vm_compute; reflexivity|].
  exists st'. split; [exact R|].
  apply (update_cycle_postcondition host_one_editor
           (onload DEFAULT_SETTINGS) st' R).
Defined.

(** X12.  One run of the generator per cached element: when
    [updateAllViews] returns, the generator has run as many times as there
    are entries in the cache, whatever was cached before. *)
Theorem update_cycle_runs_generator_per_target (host : Host)
    (st st' : Plugin) :
  Returns (updateAllViews host st) st' ->
  computations st' = (computations st + size (calculatedBreaks st'))%nat.
Proof.
  intros [fuel H]. unfold updateAllViews in H.
  destruct (updateLeaves_post _ _ _ _ _ H) as (_ & _ & _ & Hcount).
  simpl in Hcount. rewrite map_size_empty in Hcount. lia.
Qed.

Lemma update_cycle_runs_generator_per_target_witness :
  exists st' : Plugin,
    Returns (updateAllViews host_one_editor (onload DEFAULT_SETTINGS)) st' /\
    computations st'
    = (computations (onload DEFAULT_SETTINGS)
       + size (calculatedBreaks st'))%nat.
Proof.
  destruct (updateAllViews_returns host_one_editor (onload DEFAULT_SETTINGS)
              editor_view 1%positive eq_refl eq_refl)
    as (st' & R & _); [vm_compute; reflexivity|].
  exists st'. split; [exact R|].
  apply (update_cycle_runs_generator_per_target host_one_editor
           (onload DEFAULT_SETTINGS) st' R).
Defined.

(** ** Two update cycles *)

Lemma plugin_eq (a b : Plugin) :
  settings a = settings b -> breakContainers a = breakContainers b ->
  calculatedBreaks a = calculatedBreaks b -> observers a = observers b ->
  computations a = computations b -> a = b.
Proof.
  destruct a, b. simpl. intros -> -> -> -> ->. reflexivity.
Qed.

Lemma calculateSimpleBreaks_deterministic (s : Settings) (h : Z)
    (f1 f2 : nat) (l1 l2 : list Q) :
  calculateSimpleBreaks s h f1 = Some l1 ->
  calculateSimpleBreaks s h f2 = Some l2 -> l1 = l2.
Proof.
  unfold calculateSimpleBreaks. intros H1 H2.
  eapply generator_deterministic; eexists; eassumption.
Qed.

Lemma updatePageBreaks_deterministic (host : Host) (st a b : Plugin)
    (element : ContentEl) (f1 f2 : nat) :
  updatePageBreaks host st element f1 = Some a ->
  updatePageBreaks host st element f2 = Some b -> a = b.
Proof.
  intros Ha Hb.
  apply updatePageBreaks_inv in Ha. apply updatePageBreaks_inv in Hb.
  destruct Ha as [[-> Ha]|(t & bs & Ht & Hc & Hbs & Hs & Hca & Hco & Ho & Hn)];
    destruct Hb as [[-> Hb]|(t' & bs' & Ht' & Hc' & Hbs' & Hs' & Hca' & Hco'
                             & Ho' & Hn')].
  - reflexivity.
  - exfalso. destruct Ha as [Hno|(t & Ht & [x Hx])]; congruence.
  - exfalso. destruct Hb as [Hno|(t' & Ht' & [x Hx])]; congruence.
  - assert (t' = t) as -> by congruence.
    rewrite (calculateSimpleBreaks_deterministic _ _ _ _ _ _ Hbs' Hbs) in *.
    apply plugin_eq; congruence.
Qed.

Lemma updateLeaves_deterministic (host : Host)
    (ls : list (option ContentEl)) :
  forall (st a b : Plugin) (f1 f2 : nat),
    updateLeaves host ls st f1 = Some a ->
    updateLeaves host ls st f2 = Some b -> a = b.
Proof.
  induction ls as [|[element|] rest IH]; intros st a b f1 f2 Ha Hb;
    simpl in *.
  - congruence.
  - destruct (updatePageBreaks host st element f1) as [a1|] eqn:E1;
      [|discriminate].
    destruct (updatePageBreaks host st element f2) as [b1|] eqn:E2;
      [|discriminate].
    rewrite (updatePageBreaks_deterministic _ _ _ _ _ _ _ E1 E2) in Ha.
    eapply IH; eassumption.
  - eapply IH; eassumption.
Qed.

(** Cached elements are left alone by the rest of the cycle. *)
Lemma updateLeaves_cached_frame (host : Host)
    (ls : list (option ContentEl)) :
  forall (st st' : Plugin) (fuel : nat),
    updateLeaves host ls st fuel = Some st' ->
    forall t : Elem,
      is_Some (calculatedBreaks st !! t) ->
      calculatedBreaks st' !! t = calculatedBreaks st !! t /\
      breakContainers st' !! t = breakContainers st !! t.
Proof.
  induction ls as [|[element|] rest IH]; intros st st' fuel H t Hc;
    simpl in H.
  - injection H as <-. auto.
  - destruct (updatePageBreaks host st element fuel) as [st1|] eqn:E1;
      [|discriminate].
    apply updatePageBreaks_inv in E1.
    destruct E1 as [[-> _]|(t0 & bs & _ & Hc0 & _ & _ & Hca & Hco & _)];
      [eapply IH; eassumption|].
    assert (Hne : t0 <> t) by (intros ->; rewrite Hc0 in Hc; destruct Hc; discriminate).
    assert (Hc1 : is_Some (calculatedBreaks st1 !! t))
      by (rewrite Hca, lookup_insert_ne by exact Hne; exact Hc).
    destruct (IH _ _ _ H t Hc1) as [E1 E2].
    rewrite E1, E2, Hca, Hco, lookup_insert_ne, overlay_lookup_ne by exact Hne.
    auto.
  - eapply IH; eassumption.
Qed.

(** Two runs of the cycle from plugin states with the same settings and
    cache: same cache afterwards, same overlays for what was computed, and
    the overlays of the other elements as they were. *)
Lemma updateLeaves_sim (host : Host) (ls : list (option ContentEl)) :
  forall (a b a' : Plugin) (fuel : nat),
    settings a = settings b -> calculatedBreaks a = calculatedBreaks b ->
    updateLeaves host ls a fuel = Some a' ->
    exists b' : Plugin,
      updateLeaves host ls b fuel = Some b' /\
      settings a' = settings b' /\
      calculatedBreaks a' = calculatedBreaks b' /\
      forall t : Elem,
        (calculatedBreaks a !! t = None ->
         is_Some (calculatedBreaks a' !! t) ->
         breakContainers a' !! t = breakContainers b' !! t) /\
        (calculatedBreaks a' !! t = None ->
         breakContainers a' !! t = breakContainers a !! t /\
         breakContainers b' !! t = breakContainers b !! t).
Proof.
  induction ls as [|[element|] rest IH]; intros a b a' fuel Hs Hc H;
    simpl in H |- *.
  - injection H as <-. exists b. repeat split; auto.
    intros Hn [x Hx]. congruence.
  - destruct (updatePageBreaks host a element fuel) as [a1|] eqn:E1;
      [|discriminate].
    assert (Hstep : exists b1 : Plugin,
               updatePageBreaks host b element fuel = Some b1 /\
               settings a1 = settings b1 /\
               calculatedBreaks a1 = calculatedBreaks b1 /\
               forall t : Elem,
                 (calculatedBreaks a !! t = None ->
                  is_Some (calculatedBreaks a1 !! t) ->
                  breakContainers a1 !! t = breakContainers b1 !! t) /\
                 (calculatedBreaks a1 !! t = None ->
                  breakContainers a1 !! t = breakContainers a !! t /\
                  breakContainers b1 !! t = breakContainers b !! t)).
    { pose proof E1 as E1'. apply updatePageBreaks_inv in E1'.
      unfold updatePageBreaks in E1 |- *. rewrite <- Hs, <- Hc.
      destruct E1' as [[-> Hwhy]|(t0 & bs & Ht & Hc0 & Hbs & Hs1 & Hca & Hco
                                  & _)].
      - exists b. split.
        + destruct Hwhy as [Hno|(t0 & Ht & [x Hx])].
          * rewrite Hno. reflexivity.
          * rewrite Ht, Hx. reflexivity.
        + repeat split; auto. intros Hn [x Hx]. congruence.
      - rewrite Ht, Hc0, Hbs. eexists. split; [reflexivity|]. simpl.
        split; [congruence|]. split; [congruence|].
        intros t. rewrite Hca, Hco. destruct (decide (t0 = t)) as [<-|Hne].
        + rewrite !lookup_insert_eq. split; [reflexivity|discriminate].
        + rewrite lookup_insert_ne, !overlay_lookup_ne by exact Hne.
          split; [|auto]. intros Hn [x Hx]. congruence. }
    destruct Hstep as (b1 & Eb1 & Hs1 & Hc1 & Hrel1).
    destruct (IH _ _ _ _ Hs1 Hc1 H) as (b' & Eb' & Hs' & Hc' & Hrel').
    exists b'. rewrite Eb1. split; [exact Eb'|]. split; [exact Hs'|].
    split; [exact Hc'|].
    intros t. destruct (Hrel1 t) as [R1 R2]. destruct (Hrel' t) as [R1' R2'].
    split.
    + intros Hn Hsome.
      destruct (calculatedBreaks a1 !! t) as [x|] eqn:Ea1.
      * assert (Hx : is_Some (calculatedBreaks a1 !! t)) by (rewrite Ea1; eauto).
        assert (Hxb : is_Some (calculatedBreaks b1 !! t)) by (rewrite <- Hc1; exact Hx).
        destruct (updateLeaves_cached_frame _ _ _ _ _ H t Hx) as [_ Fa].
        destruct (updateLeaves_cached_frame _ _ _ _ _ Eb' t Hxb) as [_ Fb].
        rewrite Fa, Fb. apply R1; [exact Hn|eauto].
      * apply R1'; [reflexivity|exact Hsome].
    + intros Hn.
      assert (Hn1 : calculatedBreaks a1 !! t = None).
      { destruct (calculatedBreaks a1 !! t) as [x|] eqn:Ea1; [|reflexivity].
        assert (Hx : is_Some (calculatedBreaks a1 !! t)) by (rewrite Ea1; eauto).
        destruct (updateLeaves_cached_frame _ _ _ _ _ H t Hx) as [Fa _].
        congruence. }
      destruct (R2' Hn) as [Ea Eb]. destruct (R2 Hn1) as [Ea0 Eb0].
      split; congruence.
  - apply IH; assumption.
Qed.

(** X13.  The second of two consecutive update cycles changes nothing but
    the counter: after [updateAllViews] has returned, a second
    [updateAllViews] on the same host returns too, with the same settings,
    the same cached sequences and the same overlays; but it runs the
    generator again for every cached element. *)
Theorem second_update_cycle_same_result (host : Host) (st st1 : Plugin) :
  Returns (updateAllViews host st) st1 ->
  (exists st2 : Plugin, Returns (updateAllViews host st1) st2) /\
  forall st2 : Plugin,
    Returns (updateAllViews host st1) st2 ->
    settings st2 = settings st1 /\
    calculatedBreaks st2 = calculatedBreaks st1 /\
    breakContainers st2 = breakContainers st1 /\
    computations st2
    = (computations st1 + size (calculatedBreaks st1))%nat.
Proof.
  intros [f1 H1]. unfold updateAllViews in H1.
  destruct (updateLeaves_post _ _ _ _ _ H1) as (Hset & _ & _ & Hcount1).
  simpl in Hset.
  destruct (updateLeaves_sim host (leaves host) (clearCalculatedBreaks st)
              (clearCalculatedBreaks st1) st1 f1) as (b' & Eb' & Hs' & Hc' & Hrel);
    [simpl; congruence|reflexivity|exact H1|].
  assert (Hres : settings b' = settings st1 /\
                 calculatedBreaks b' = calculatedBreaks st1 /\
                 breakContainers b' = breakContainers st1 /\
                 computations b'
                 = (computations st1 + size (calculatedBreaks st1))%nat).
  { split; [congruence|]. split; [congruence|]. split.
    - apply map_eq. intros t. destruct (Hrel t) as [R1 R2].
      destruct (calculatedBreaks st1 !! t) as [x|] eqn:E.
      + symmetry. apply R1; [apply lookup_empty|eauto].
      + destruct (R2 eq_refl) as [_ Eb]. exact Eb.
    - destruct (updateLeaves_post _ _ _ _ _ Eb') as (_ & _ & _ & Hcount2).
      simpl in Hcount2. rewrite map_size_empty in Hcount2.
      rewrite <- Hc' in Hcount2. lia. }
  split; [exists b', f1; exact Eb'|].
  intros st2 [f2 H2]. unfold updateAllViews in H2.
  rewrite (updateLeaves_deterministic _ _ _ _ _ _ _ H2 Eb'). exact Hres.
Qed.

Lemma second_update_cycle_same_result_witness :
  exists st1 : Plugin,
    Returns (updateAllViews host_one_editor (onload DEFAULT_SETTINGS)) st1 /\
    exists st2 : Plugin, Returns (updateAllViews host_one_editor st1) st2.
Proof.
  destruct (updateAllViews_returns host_one_editor (onload DEFAULT_SETTINGS)
              editor_view 1%positive eq_refl eq_refl)
    as (st1 & R & _); [vm_compute; reflexivity|].
  exists st1. split; [exact R|].
  apply (second_update_cycle_same_result host_one_editor
           (onload DEFAULT_SETTINGS) st1 R).
Defined.

(** Two update cycles from plugin states with the same settings: if one
    returns, so does the other (with the same fuel), with the same cache,
    the same overlays for the cached elements, and the overlays of the
    other elements as each state had them. *)
Lemma updateAllViews_sim (host : Host) (a b a' : Plugin) :
  settings a = settings b ->
  Returns (updateAllViews host a) a' ->
  exists b' : Plugin,
    Returns (updateAllViews host b) b' /\
    settings a' = settings b' /\
    calculatedBreaks a' = calculatedBreaks b' /\
    forall t : Elem,
      (is_Some (calculatedBreaks a' !! t) ->
       breakContainers a' !! t = breakContainers b' !! t) /\
      (calculatedBreaks a' !! t = None ->
       breakContainers a' !! t = breakContainers a !! t /\
       breakContainers b' !! t = breakContainers b !! t).
Proof.
  intros Hs [fuel H]. unfold updateAllViews in H.
  destruct (updateLeaves_sim host (leaves host) (clearCalculatedBreaks a)
              (clearCalculatedBreaks b) a' fuel Hs eq_refl H)
    as (b' & Eb' & Hs' & Hc' & Hrel).
  exists b'. split; [exists fuel; exact Eb'|].
  split; [exact Hs'|]. split; [exact Hc'|].
  intros t. destruct (Hrel t) as [R1 R2]. split; [|exact R2].
  intros Hsome. apply R1; [apply lookup_empty|exact Hsome].
Qed.

(** X14.  Recalibration starts afresh.  The update cycle that follows
    [recalibrate] (cache cleared, overlays removed) returns exactly when
    the cycle of a freshly loaded plugin with the same settings does, and
    the two leave the same settings, the same cache and the same overlays:
    no overlay or sequence from before survives. *)
Theorem recalibrate_then_update_is_fresh (host : Host) (st : Plugin) :
  ((exists st1 : Plugin, Returns (updateAllViews host (recalibrate st)) st1)
   <->
   (exists st2 : Plugin,
      Returns (updateAllViews host (onload (settings st))) st2)) /\
  forall st1 st2 : Plugin,
    Returns (updateAllViews host (recalibrate st)) st1 ->
    Returns (updateAllViews host (onload (settings st))) st2 ->
    settings st1 = settings st2 /\
    calculatedBreaks st1 = calculatedBreaks st2 /\
    breakContainers st1 = breakContainers st2.
Proof.
  split.
  - split; intros [x Hx].
    + destruct (updateAllViews_sim host (recalibrate st)
                  (onload (settings st)) x eq_refl Hx) as (y & Hy & _).
      exists y. exact Hy.
    + destruct (updateAllViews_sim host (onload (settings st))
                  (recalibrate st) x eq_refl Hx) as (y & Hy & _).
      exists y. exact Hy.
  - intros st1 st2 H1 H2.
    destruct (updateAllViews_sim host (recalibrate st)
                (onload (settings st)) st1 eq_refl H1)
      as (b' & [fb Hb'] & Hs' & Hc' & Hrel).
    destruct H2 as [f2 H2]. unfold updateAllViews in H2, Hb'.
    rewrite (updateLeaves_deterministic _ _ _ _ _ _ _ H2 Hb').
    split; [exact Hs'|]. split; [exact Hc'|].
    apply map_eq. intros t. destruct (Hrel t) as [R1 R2].
    destruct (calculatedBreaks st1 !! t) as [x|] eqn:E.
    + apply R1. eauto.
    + destruct (R2 eq_refl) as [Ea Eb]. rewrite Ea, Eb. reflexivity.
Qed.

Lemma recalibrate_then_update_is_fresh_witness :
  shown plugin_after_update 1%positive
  = ([916%Z; 1833%Z], [2%nat; 3%nat]) /\
  exists st1 st2 : Plugin,
    Returns (updateAllViews host_grown (recalibrate plugin_after_update))
      st1 /\
    Returns (updateAllViews host_grown
               (onload (settings plugin_after_update))) st2 /\
    shown st1 1%positive
    = ([916%Z; 1833%Z; 2749%Z], [2%nat; 3%nat; 4%nat]) /\
    settings st1 = settings st2 /\
    calculatedBreaks st1 = calculatedBreaks st2 /\
    breakContainers st1 = breakContainers st2.
Proof.
  split; [vm_compute; reflexivity|].
  destruct (updateAllViews host_grown (recalibrate plugin_after_update) 5)
    as [st1|] eqn:E1; [|vm_compute in E1; discriminate].
  destruct (updateAllViews host_grown
              (onload (settings plugin_after_update)) 5)
    as [st2|] eqn:E2; [|vm_compute in E2; discriminate].
  exists st1, st2.
  split; [exists 5%nat; exact E1|]. split; [exists 5%nat; exact E2|].
  split.
  - assert (E' := E1). vm_compute in E'. injection E' as <-.
    vm_compute. reflexivity.
  - apply (recalibrate_then_update_is_fresh host_grown plugin_after_update).
    + exists 5%nat. exact E1.
    + exists 5%nat. exact E2.
Defined.

(** ** Extension of the overlays *)

(** What one iteration of [extendContainersIfNeeded] keeps. *)
Lemma extendContainer_frame (host : Host) (st st' : Plugin) (t : Elem)
    (c : BreakContainer) (fuel : nat) :
  extendContainer host st t c fuel = Some st' ->
  settings st' = settings st /\
  computations st' = computations st /\
  (forall t' : Elem, t' <> t ->
     calculatedBreaks st' !! t' = calculatedBreaks st !! t' /\
     breakContainers st' !! t' = breakContainers st !! t') /\
  (forall bs : list Q,
     calculatedBreaks st !! t = Some bs ->
     exists extra : list Q, calculatedBreaks st' !! t = Some (bs ++ extra)) /\
  (breakContainers st !! t = Some c ->
   exists c' : BreakContainer,
     breakContainers st' !! t = Some c' /\
     (scrollHeight host t <= style_height c' + 100)%Z).
Proof.
  unfold extendContainer. intros H.
  destruct (style_height c + 100 <? scrollHeight host t)%Z eqn:Egrow.
  - destruct (createAdditionalBreaks _ _ _ _ _ _) as [newBreaks|];
      [|discriminate].
    destruct (0 <? length newBreaks)%nat; injection H as <-; simpl;
      (split; [reflexivity|]); (split; [reflexivity|]); (split; [|split]).
    + intros t' Hne. rewrite !lookup_insert_ne by congruence. auto.
    + intros bs Hbs. rewrite Hbs, lookup_insert_eq. simpl. eauto.
    + intros _. rewrite lookup_insert_eq. eexists. split; [reflexivity|].
      simpl. lia.
    + intros t' Hne. rewrite !lookup_insert_ne by congruence. auto.
    + intros bs Hbs. exists []. rewrite app_nil_r. exact Hbs.
    + intros _. rewrite lookup_insert_eq. eexists. split; [reflexivity|].
      simpl. lia.
  - injection H as <-. apply Z.ltb_ge in Egrow.
    repeat split; auto.
    + intros bs Hbs. exists []. rewrite app_nil_r. exact Hbs.
    + intros Hc. exists c. split; [exact Hc|exact Egrow].
Qed.

Lemma cache_extends_refl (m : gmap Elem (list Q)) : cache_extends m m.
Proof. intros t bs H. exists []. rewrite app_nil_r. exact H. Qed.

Lemma cache_extends_trans (m1 m2 m3 : gmap Elem (list Q)) :
  cache_extends m1 m2 -> cache_extends m2 m3 -> cache_extends m1 m3.
Proof.
  intros H12 H23 t bs H. destruct (H12 t bs H) as [e1 H2].
  destruct (H23 t _ H2) as [e2 H3]. exists (e1 ++ e2).
  rewrite app_assoc. exact H3.
Qed.

Lemma extendEntries_frame (host : Host)
    (entries : list (Elem * BreakContainer)) :
  forall (st st' : Plugin) (fuel : nat),
    extendEntries host entries st fuel = Some st' ->
    settings st' = settings st /\
    computations st' = computations st /\
    cache_extends (calculatedBreaks st) (calculatedBreaks st') /\
    forall t : Elem, t ∉ entries.*1 ->
      calculatedBreaks st' !! t = calculatedBreaks st !! t /\
      breakContainers st' !! t = breakContainers st !! t.
Proof.
  induction entries as [|[t0 c0] rest IH]; intros st st' fuel H; simpl in H.
  - injection H as <-. repeat split; auto. apply cache_extends_refl.
  - destruct (extendContainer host st t0 c0 fuel) as [st1|] eqn:E1;
      [|discriminate].
    destruct (extendContainer_frame _ _ _ _ _ _ E1)
      as (Hs1 & Hn1 & Hother & Hext & _).
    destruct (IH _ _ _ H) as (Hs & Hn & Hce & Hfr).
    split; [congruence|]. split; [congruence|]. split.
    + eapply cache_extends_trans; [|exact Hce].
      intros t bs Hbs. destruct (decide (t = t0)) as [->|Hne].
      * apply Hext, Hbs.
      * exists []. rewrite app_nil_r.
        destruct (Hother t Hne) as [-> _]. exact Hbs.
    + intros t Hnot. rewrite fmap_cons in Hnot.
      apply not_elem_of_cons in Hnot. destruct Hnot as [Hne Hnot].
      simpl in Hne. destruct (Hfr t Hnot) as [-> ->]. apply Hother, Hne.
Qed.

(** With distinct keys, what the traversal leaves at a key is what the
    iteration for that key produced, from a state that had the initial
    cache entry and overlay at that key. *)
Lemma extendEntries_local (host : Host)
    (entries : list (Elem * BreakContainer)) :
  NoDup entries.*1 ->
  forall (st st' : Plugin) (fuel : nat),
    (forall (t : Elem) (c : BreakContainer),
       (t, c) ∈ entries -> breakContainers st !! t = Some c) ->
    extendEntries host entries st fuel = Some st' ->
    forall (t : Elem) (c : BreakContainer),
      (t, c) ∈ entries ->
      exists stm stm' : Plugin,
        settings stm = settings st /\
        calculatedBreaks stm !! t = calculatedBreaks st !! t /\
        breakContainers stm !! t = Some c /\
        extendContainer host stm t c fuel = Some stm' /\
        calculatedBreaks st' !! t = calculatedBreaks stm' !! t /\
        breakContainers st' !! t = breakContainers stm' !! t.
Proof.
  induction entries as [|[t0 c0] rest IH]; intros Hnd st st' fuel Hin H t c Htc.
  - apply elem_of_nil in Htc. destruct Htc.
  - rewrite fmap_cons in Hnd. apply NoDup_cons in Hnd.
    destruct Hnd as [Hfresh Hnd]. simpl in Hfresh, H.
    destruct (extendContainer host st t0 c0 fuel) as [st1|] eqn:E1;
      [|discriminate].
    destruct (extendContainer_frame _ _ _ _ _ _ E1)
      as (Hs1 & _ & Hother & _ & _).
    apply elem_of_cons in Htc. destruct Htc as [Heq|Hrest].
    + injection Heq as -> ->.
      destruct (extendEntries_frame _ _ _ _ _ H) as (_ & _ & _ & Hfr).
      exists st, st1. destruct (Hfr t0 Hfresh) as [Ec Eb].
      split; [reflexivity|]. split; [reflexivity|].
      split; [apply Hin; left|]. auto.
    + assert (Hne : t <> t0).
      { intros ->. apply Hfresh.
        apply (list_elem_of_fmap_2 fst) in Hrest. exact Hrest. }
      assert (Hin1 : forall (t' : Elem) (c' : BreakContainer),
                 (t', c') ∈ rest -> breakContainers st1 !! t' = Some c').
      { intros t' c' Hin'.
        assert (Hne' : t' <> t0).
        { intros ->. apply Hfresh.
          apply (list_elem_of_fmap_2 fst) in Hin'. exact Hin'. }
        destruct (Hother t' Hne') as [_ ->]. apply Hin. right. exact Hin'. }
      destruct (IH Hnd _ _ _ Hin1 H t c Hrest)
        as (stm & stm' & Hsm & Hcm & Hbm & Em & Ec & Eb).
      exists stm, stm'. destruct (Hother t Hne) as [Ec1 _].
      split; [congruence|]. split; [congruence|]. auto.
Qed.

Lemma extension_local (host : Host) (st st' : Plugin) (fuel : nat) :
  extendContainersIfNeeded host st fuel = Some st' ->
  forall t : Elem,
    match breakContainers st !! t with
    | Some c =>
        exists stm stm' : Plugin,
          settings stm = settings st /\
          calculatedBreaks stm !! t = calculatedBreaks st !! t /\
          breakContainers stm !! t = Some c /\
          extendContainer host stm t c fuel = Some stm' /\
          calculatedBreaks st' !! t = calculatedBreaks stm' !! t /\
          breakContainers st' !! t = breakContainers stm' !! t
    | None => breakContainers st' !! t = None
    end.
Proof.
  unfold extendContainersIfNeeded. intros H t.
  destruct (breakContainers st !! t) as [c|] eqn:E.
  - apply (extendEntries_local host (map_to_list (breakContainers st))
             (NoDup_fst_map_to_list (breakContainers st)) st st' fuel);
      [|exact H|].
    + intros t' c' Hin. apply elem_of_map_to_list in Hin. exact Hin.
    + apply elem_of_map_to_list. exact E.
  - destruct (extendEntries_frame _ _ _ _ _ H) as (_ & _ & _ & Hfr).
    destruct (Hfr t) as [_ ->]; [|exact E].
    intros Hin. apply list_elem_of_fmap_1 in Hin.
    destruct Hin as ([t' c'] & -> & Hin). simpl in E.
    apply elem_of_map_to_list in Hin. congruence.
Qed.

(** X15.  Extension only adds.  When [extendContainersIfNeeded] returns,
    the settings are unchanged, the generator has not been run, every
    cached sequence is still cached with its offsets unchanged (new ones
    come after them), and the elements that have an overlay are the
    same. *)
Theorem extension_only_appends (host : Host) (st st' : Plugin) :
  Returns (extendContainersIfNeeded host st) st' ->
  settings st' = settings st /\
  computations st' = computations st /\
  cache_extends (calculatedBreaks st) (calculatedBreaks st') /\
  forall t : Elem,
    is_Some (breakContainers st' !! t) <-> is_Some (breakContainers st !! t).
Proof.
  intros [fuel H].
  pose proof (extension_local _ _ _ _ H) as Hloc.
  unfold extendContainersIfNeeded in H.
  destruct (extendEntries_frame _ _ _ _ _ H) as (Hs & Hn & Hce & _).
  split; [exact Hs|]. split; [exact Hn|]. split; [exact Hce|].
  intros t. specialize (Hloc t).
  destruct (breakContainers st !! t) as [c|] eqn:E.
  - destruct Hloc as (stm & stm' & _ & _ & Hbm & Em & _ & Eb).
    destruct (extendContainer_frame _ _ _ _ _ _ Em) as (_ & _ & _ & _ & Hc).
    destruct (Hc Hbm) as (c' & Hc' & _). rewrite Eb, Hc'. split; eauto.
  - rewrite Hloc. reflexivity.
Qed.

(** X17.  After an extension pass no overlay is more than 100 pixels
    shorter than the content of its element. *)
Theorem extension_overlay_height (host : Host) (st st' : Plugin) :
  Returns (extendContainersIfNeeded host st) st' ->
  forall (t : Elem) (c' : BreakContainer),
    breakContainers st' !! t = Some c' ->
    (scrollHeight host t <= style_height c' + 100)%Z.
Proof.
  intros [fuel H] t c' Hc'.
  pose proof (extension_local _ _ _ _ H t) as Hloc.
  destruct (breakContainers st !! t) as [c|] eqn:E; [|congruence].
  destruct Hloc as (stm & stm' & _ & _ & Hbm & Em & _ & Eb).
  destruct (extendContainer_frame _ _ _ _ _ _ Em) as (_ & _ & _ & _ & Hc).
  destruct (Hc Hbm) as (c'' & Hc'' & Hh). congruence.
Qed.

(** X18.  Extension keeps the overlays in step with the cache: if every
    overlay shows the markers of the sequence cached for its element,
    numbered by position, it still does after
    [extendContainersIfNeeded]. *)
Theorem extension_keeps_overlay_in_step (host : Host) (st st' : Plugin) :
  overlay_shows_cache st ->
  Returns (extendContainersIfNeeded host st) st' ->
  overlay_shows_cache st'.
Proof.
  intros Hinv [fuel H] t c' Hc'.
  pose proof (extension_local _ _ _ _ H t) as Hloc.
  unfold extendContainersIfNeeded in H.
  destruct (extendEntries_frame _ _ _ _ _ H) as (Hs & _ & _ & _).
  destruct (breakContainers st !! t) as [c|] eqn:E; [|congruence].
  destruct Hloc as (stm & stm' & Hsm & Hcm & Hbm & Em & Ec & Eb).
  destruct (extendContainer_frame _ _ _ _ _ _ Em) as (Hsm' & _).
  destruct (extendContainer_numbering host stm stm' t c fuel Hbm) as (c'' & Hc'' & Hch);
    [rewrite Hsm, Hcm; apply Hinv, E|exact Em|].
  assert (c' = c'') as -> by congruence.
  rewrite Hch, Ec. f_equal. congruence.
Qed.

(** X16.  Hysteresis: when no element has grown by more than 100 pixels
    beyond the height of its overlay, [extendContainersIfNeeded] returns
    the plugin state unchanged, with any fuel. *)
Theorem extension_hysteresis (host : Host) (st : Plugin) :
  (forall (t : Elem) (c : BreakContainer),
     breakContainers st !! t = Some c ->
     (scrollHeight host t <= style_height c + 100)%Z) ->
  forall fuel : nat, extendContainersIfNeeded host st fuel = Some st.
Proof.
  intros Hsmall fuel. unfold extendContainersIfNeeded.
  assert (Hall : forall (t : Elem) (c : BreakContainer),
             (t, c) ∈ map_to_list (breakContainers st) ->
             (scrollHeight host t <= style_height c + 100)%Z).
  { intros t c Hin. apply elem_of_map_to_list in Hin. apply Hsmall, Hin. }
  induction (map_to_list (breakContainers st)) as [|[t0 c0] rest IH];
    [reflexivity|].
  simpl. unfold extendContainer.
  assert (Hno : (style_height c0 + 100 <? scrollHeight host t0)%Z = false).
  { apply Z.ltb_ge. apply Hall. left. }
  rewrite Hno. apply IH. intros t c Hin. apply Hall. right. exact Hin.
Qed.

(** ** Termination of the cycles *)

Lemma updatePageBreaks_fuel_le (host : Host) (st st' : Plugin)
    (element : ContentEl) (fuel fuel' : nat) :
  (fuel <= fuel')%nat ->
  updatePageBreaks host st element fuel = Some st' ->
  updatePageBreaks host st element fuel' = Some st'.
Proof.
  intros Hle. unfold updatePageBreaks.
  destruct (findTarget element) as [t|]; [|auto].
  destruct (calculatedBreaks st !! t); [auto|].
  destruct (calculateSimpleBreaks _ _ fuel) as [breaks|] eqn:E; [|discriminate].
  unfold calculateSimpleBreaks, calculateSimpleBreaks_on in *.
  rewrite (loop_fuel_le _ _ _ _ _ _ _ _ _ Hle E). auto.
Qed.

Lemma updateLeaves_fuel_le (host : Host) (ls : list (option ContentEl)) :
  forall (st st' : Plugin) (fuel fuel' : nat),
    (fuel <= fuel')%nat ->
    updateLeaves host ls st fuel = Some st' ->
    updateLeaves host ls st fuel' = Some st'.
Proof.
  induction ls as [|[element|] rest IH]; intros st st' fuel fuel' Hle H;
    simpl in *.
  - exact H.
  - destruct (updatePageBreaks host st element fuel) as [st1|] eqn:E1;
      [|discriminate].
    rewrite (updatePageBreaks_fuel_le _ _ _ _ _ _ Hle E1). eapply IH; eassumption.
  - eapply IH; eassumption.
Qed.

Lemma updatePageBreaks_returns (host : Host) (st : Plugin)
    (element : ContentEl) :
  0 < getPageHeight (settings st) ->
  exists (fuel : nat) (st' : Plugin),
    updatePageBreaks host st element fuel = Some st' /\
    settings st' = settings st.
Proof.
  intros Hph. unfold updatePageBreaks.
  destruct (findTarget element) as [t|]; [|exists 0%nat, st; auto].
  destruct (calculatedBreaks st !! t); [exists 0%nat, st; auto|].
  destruct (generator_returns (inject_Z (scrollHeight host t))
              (getPageHeight (settings st)) (calibrationOffset (settings st))
              (minBreakSpacing (settings st)) Hph) as (l & fuel & Hgen).
  exists fuel. unfold calculateSimpleBreaks. rewrite Hgen.
  eexists. split; reflexivity.
Qed.

Lemma updateLeaves_returns (host : Host) (ls : list (option ContentEl)) :
  forall st : Plugin,
    0 < getPageHeight (settings st) ->
    exists (fuel : nat) (st' : Plugin),
      updateLeaves host ls st fuel = Some st'.
Proof.
  induction ls as [|[element|] rest IH]; intros st Hph; simpl.
  - exists 0%nat, st. reflexivity.
  - destruct (updatePageBreaks_returns host st element Hph)
      as (f1 & st1 & E1 & Hs1).
    rewrite <- Hs1 in Hph. destruct (IH st1 Hph) as (f2 & st' & E2).
    exists (f1 + f2)%nat, st'.
    rewrite (updatePageBreaks_fuel_le _ _ _ _ f1 (f1 + f2) ltac:(lia) E1).
    apply (updateLeaves_fuel_le _ _ _ _ f2); [lia|exact E2].
  - apply IH, Hph.
Qed.

(** X19.  With a positive page height the update cycle returns, whatever
    the views and their heights are. *)
Theorem update_cycle_returns (host : Host) (st : Plugin) :
  0 < getPageHeight (settings st) ->
  exists st' : Plugin, Returns (updateAllViews host st) st'.
Proof.
  intros Hph.
  destruct (updateLeaves_returns host (leaves host) (clearCalculatedBreaks st)
              Hph) as (fuel & st' & H).
  exists st', fuel. exact H.
Qed.

Lemma update_cycle_returns_witness :
  exists st' : Plugin,
    Returns (updateAllViews host_grown (onload DEFAULT_SETTINGS)) st'.
Proof.
  apply (update_cycle_returns host_grown (onload DEFAULT_SETTINGS)).
  vm_compute. reflexivity.
Defined.

Lemma createAdditionalBreaks_fuel_le (s : Settings)
    (lastBreak oldHeight newHeight pageHeight : Q) (fuel fuel' : nat)
    (l : list Q) :
  (fuel <= fuel')%nat ->
  createAdditionalBreaks s lastBreak oldHeight newHeight pageHeight fuel
    = Some l ->
  createAdditionalBreaks s lastBreak oldHeight newHeight pageHeight fuel'
    = Some l.
Proof.
  intros Hle. unfold createAdditionalBreaks, createAdditionalBreaks_on.
  destruct (Qeq_bool pageHeight 0); [auto|].
  apply ext_fuel_le, Hle.
Qed.

Lemma extendContainer_fuel_le (host : Host) (st st' : Plugin) (t : Elem)
    (c : BreakContainer) (fuel fuel' : nat) :
  (fuel <= fuel')%nat ->
  extendContainer host st t c fuel = Some st' ->
  extendContainer host st t c fuel' = Some st'.
Proof.
  intros Hle. unfold extendContainer.
  destruct (_ <? _)%Z; [|auto].
  destruct (createAdditionalBreaks _ _ _ _ _ fuel) as [l|] eqn:E;
    [|discriminate].
  rewrite (createAdditionalBreaks_fuel_le _ _ _ _ _ _ _ _ Hle E). auto.
Qed.

Lemma extendEntries_fuel_le (host : Host)
    (entries : list (Elem * BreakContainer)) :
  forall (st st' : Plugin) (fuel fuel' : nat),
    (fuel <= fuel')%nat ->
    extendEntries host entries st fuel = Some st' ->
    extendEntries host entries st fuel' = Some st'.
Proof.
  induction entries as [|[t c] rest IH]; intros st st' fuel fuel' Hle H;
    simpl in *.
  - exact H.
  - destruct (extendContainer host st t c fuel) as [st1|] eqn:E1;
      [|discriminate].
    rewrite (extendContainer_fuel_le _ _ _ _ _ _ _ Hle E1).
    eapply IH; eassumption.
Qed.

Lemma extendContainer_returns (host : Host) (st : Plugin) (t : Elem)
    (c : BreakContainer) :
  0 < getPageHeight (settings st) ->
  exists (fuel : nat) (st' : Plugin),
    extendContainer host st t c fuel = Some st'.
Proof.
  intros Hph. unfold extendContainer.
  destruct (_ <? _)%Z; [|exists 0%nat, st; reflexivity].
  destruct (extender_returns (calibrationOffset (settings st))
              (minBreakSpacing (settings st))
              (lastBreakPosition (default [] (calculatedBreaks st !! t)))
              (inject_Z (style_height c)) (inject_Z (scrollHeight host t))
              (getPageHeight (settings st)) Hph) as (l & fuel & Hl).
  exists fuel. unfold createAdditionalBreaks. rewrite Hl.
  destruct (0 <? length l)%nat; eexists; reflexivity.
Qed.

Lemma extendEntries_returns (host : Host)
    (entries : list (Elem * BreakContainer)) :
  forall st : Plugin,
    0 < getPageHeight (settings st) ->
    exists (fuel : nat) (st' : Plugin),
      extendEntries host entries st fuel = Some st'.
Proof.
  induction entries as [|[t c] rest IH]; intros st Hph; simpl.
  - exists 0%nat, st. reflexivity.
  - destruct (extendContainer_returns host st t c Hph) as (f1 & st1 & E1).
    destruct (extendContainer_frame _ _ _ _ _ _ E1) as (Hs1 & _).
    rewrite <- Hs1 in Hph. destruct (IH st1 Hph) as (f2 & st' & E2).
    exists (f1 + f2)%nat, st'.
    rewrite (extendContainer_fuel_le _ _ _ _ _ f1 (f1 + f2) ltac:(lia) E1).
    apply (extendEntries_fuel_le _ _ _ _ f2); [lia|exact E2].
Qed.

(** X20.  With a positive page height the extension pass returns, whatever
    the overlays, the cache and the heights are. *)
Theorem extension_returns (host : Host) (st : Plugin) :
  0 < getPageHeight (settings st) ->
  exists st' : Plugin, Returns (extendContainersIfNeeded host st) st'.
Proof.
  intros Hph. unfold Returns, extendContainersIfNeeded.
  destruct (extendEntries_returns host (map_to_list (breakContainers st))
              st Hph) as (fuel & st' & H).
  exists st', fuel. exact H.
Qed.

Lemma extension_returns_witness :
  exists st' : Plugin,
    Returns (extendContainersIfNeeded host_grown plugin_after_update) st'.
Proof.
  apply (extension_returns host_grown plugin_after_update).
  vm_compute. reflexivity.
Defined.

(** ** A fresh plugin *)

Lemma fresh_update_overlays (host : Host) (st st' : Plugin) :
  Returns (updateAllViews host (recalibrate st)) st' ->
  overlay_shows_cache st' /\
  forall t : Elem, is_Some (breakContainers st' !! t) <-> isTarget host t.
Proof.
  intros [fuel H]. unfold updateAllViews in H.
  destruct (updateLeaves_post _ _ _ _ _ H) as (_ & Hsound & Hdom & _).
  assert (Hs : cache_sound host st').
  { apply Hsound. intros t bs Hbs. simpl in Hbs.
    rewrite lookup_empty in Hbs. discriminate. }
  destruct (updateLeaves_sim host (leaves host) _ _ _ _ eq_refl eq_refl H)
    as (b' & _ & _ & _ & Hrel).
  assert (Hnone : forall t : Elem,
             calculatedBreaks st' !! t = None ->
             breakContainers st' !! t = None).
  { intros t Hn. destruct (Hrel t) as [_ R2]. destruct (R2 Hn) as [-> _].
    apply lookup_empty. }
  split.
  - intros t c Hc.
    destruct (calculatedBreaks st' !! t) as [bs|] eqn:E;
      [|rewrite (Hnone t E) in Hc; discriminate].
    destruct (Hs t bs E) as (_ & c0 & Hc0 & Hch & _). simpl. congruence.
  - intros t. transitivity (is_Some (calculatedBreaks st' !! t)).
    + split.
      * intros [c Hc]. destruct (calculatedBreaks st' !! t) eqn:E; [eauto|].
        rewrite (Hnone t E) in Hc. discriminate.
      * intros [bs Hbs]. destruct (Hs t bs Hbs) as (_ & c0 & Hc0 & _). eauto.
    + rewrite Hdom. unfold isTarget. simpl. rewrite lookup_empty.
      split; [intros [[x Hx]|Hex]; [discriminate|exact Hex]|auto].
Qed.

(** X21.  From a recalibrated (or freshly loaded) plugin, an update cycle
    leaves an overlay for exactly the targets of the views, and every
    overlay shows the markers of the sequence cached for its element,
    numbered by position. *)
Theorem fresh_update_overlays_in_step (host : Host) (st st' : Plugin) :
  Returns (updateAllViews host (recalibrate st)) st' ->
  overlay_shows_cache st' /\
  forall t : Elem, is_Some (breakContainers st' !! t) <-> isTarget host t.
Proof. apply fresh_update_overlays. Qed.

Lemma plugin_after_update_returned :
  Returns (updateAllViews host_one_editor (recalibrate (onload DEFAULT_SETTINGS)))
    plugin_after_update.
Proof. exists 5%nat. vm_compute. reflexivity. Qed.

Lemma fresh_update_overlays_in_step_witness :
  overlay_shows_cache plugin_after_update /\
  forall t : Elem,
    is_Some (breakContainers plugin_after_update !! t)
    <-> isTarget host_one_editor t.
Proof.
  apply (fresh_update_overlays_in_step host_one_editor
           (onload DEFAULT_SETTINGS) plugin_after_update).
  exists 5%nat. vm_compute. reflexivity.
Defined.

Lemma extension_after_update_returned :
  exists st' : Plugin,
    Returns (extendContainersIfNeeded host_grown plugin_after_update) st'.
Proof.
  destruct (extendContainersIfNeeded host_grown plugin_after_update 5)
    as [st'|] eqn:E; [|vm_compute in E; discriminate].
  exists st', 5%nat. exact E.
Defined.

Lemma extension_only_appends_witness :
  exists st' : Plugin,
    Returns (extendContainersIfNeeded host_grown plugin_after_update) st' /\
    settings st' = settings plugin_after_update /\
    computations st' = computations plugin_after_update /\
    cache_extends (calculatedBreaks plugin_after_update)
      (calculatedBreaks st') /\
    forall t : Elem,
      is_Some (breakContainers st' !! t)
      <-> is_Some (breakContainers plugin_after_update !! t).
Proof.
  destruct extension_after_update_returned as [st' R].
  exists st'. split; [exact R|].
  apply (extension_only_appends host_grown plugin_after_update st' R).
Defined.

Lemma extension_overlay_height_witness :
  exists st' : Plugin,
    Returns (extendContainersIfNeeded host_grown plugin_after_update) st' /\
    forall (t : Elem) (c' : BreakContainer),
      breakContainers st' !! t = Some c' ->
      (scrollHeight host_grown t <= style_height c' + 100)%Z.
Proof.
  destruct extension_after_update_returned as [st' R].
  exists st'. split; [exact R|].
  apply (extension_overlay_height host_grown plugin_after_update st' R).
Defined.

Lemma extension_keeps_overlay_in_step_witness :
  exists st' : Plugin,
    Returns (extendContainersIfNeeded host_grown plugin_after_update) st' /\
    overlay_shows_cache st'.
Proof.
  destruct extension_after_update_returned as [st' R].
  exists st'. split; [exact R|].
  apply (extension_keeps_overlay_in_step host_grown plugin_after_update st');
    [|exact R].
  apply (fresh_update_overlays host_one_editor (onload DEFAULT_SETTINGS)).
  exact plugin_after_update_returned.
Defined.

Lemma extension_hysteresis_witness :
  extendContainersIfNeeded host_one_editor plugin_after_update 0
  = Some plugin_after_update.
Proof.
  apply (extension_hysteresis host_one_editor plugin_after_update).
  intros t c Hc.
  assert (Hh : style_height c = 2000%Z).
  { destruct (fresh_update_overlays host_one_editor (onload DEFAULT_SETTINGS)
                plugin_after_update plugin_after_update_returned) as [_ Hdom].
    assert (Hs : cache_sound host_one_editor plugin_after_update).
    { destruct plugin_after_update_returned as [fuel H].
      unfold updateAllViews in H.
      destruct (updateLeaves_post _ _ _ _ _ H) as (_ & Hsound & _).
      apply Hsound. intros t' bs Hbs. simpl in Hbs.
      rewrite lookup_empty in Hbs. discriminate. }
    destruct (calculatedBreaks plugin_after_update !! t) as [bs|] eqn:E.
    - destruct (Hs t bs E) as (_ & c0 & Hc0 & _ & Hh). simpl in Hh.
      congruence.
    - exfalso.
      destruct (proj1 (Hdom t) (ex_intro _ c Hc)) as (el & Hin & Hel).
      destruct plugin_after_update_returned as [fuel H].
      unfold updateAllViews in H.
      destruct (updateLeaves_post _ _ _ _ _ H) as (_ & _ & Hd & _).
      assert (Hsome : is_Some (calculatedBreaks plugin_after_update !! t)).
      { apply Hd. right. exists el. split; assumption. }
      rewrite E in Hsome. destruct Hsome. discriminate. }
  simpl. lia.
Defined.
